(** * disk-viz-viewer: the usage analyzer and its size formatter

    A shallow embedding of [internal/disk] (FormatSize, GetDirSize,
    AnalyzeDiskUsage, getChildrenInfo) and of the depth handling of
    [internal/api/handler.go], with the properties of the specification
    stated and settled against it. *)

From Stdlib Require Import ZArith List Bool Ascii String Lia.
From Stdlib Require Import Permutation Sorted.
From Stdlib Require Import Floats.SpecFloat.
Import ListNotations.

Set Warnings "-register-all".

Local Open Scope string_scope.
Local Open Scope Z_scope.

(** ** Go's fixed-width integers *)

Module Int64.

Definition min_int : Z := - 2 ^ 63.
Definition max_int : Z := 2 ^ 63 - 1.

Definition in_range (z : Z) : Prop := min_int <= z <= max_int.

(** Two's complement wrap-around of an exact result into int64. *)
Definition wrap (z : Z) : Z := (z + 2 ^ 63) mod 2 ^ 64 - 2 ^ 63.

Definition add (a b : Z) : Z := wrap (a + b).
Definition neg (a : Z) : Z := wrap (- a).

(** [+=] over a slice of int64 values, starting from [acc]. *)
Definition sum_from (acc : Z) (l : list Z) : Z := fold_left add l acc.
Definition sum (l : list Z) : Z := sum_from 0 l.

End Int64.

(** ** IEEE 754 binary64, as Go's float64

    The operations are those of the Standard Library's executable
    specification of binary floating point, at precision 53. *)

Module Float64.

Definition prec : Z := 53.
Definition emax : Z := 1024.

Definition t : Type := spec_float.

(** [float64(n)] for an integer [n]: round to nearest, ties to even. *)
Definition of_int (n : Z) : t := binary_normalize prec emax n 0 false.

Definition div (x y : t) : t := SFdiv prec emax x y.
Definition mul (x y : t) : t := SFmul prec emax x y.
Definition sub (x y : t) : t := SFsub prec emax x y.
Definition eqb (x y : t) : bool := SFeqb x y.

(** [int64(f)]: truncation toward zero.  Go leaves the conversion of a NaN,
    an infinity or an out-of-range value to the implementation; amd64
    yields the smallest int64 there. *)
Definition to_int64 (f : t) : Z :=
  match f with
  | S754_zero _ => 0
  | S754_finite s m e =>
      let mag := match e with
                 | Zneg p => Z.shiftr (Zpos m) (Zpos p)
                 | _ => Zpos m * 2 ^ e
                 end in
      let v := if s then - mag else mag in
      if (Int64.min_int <=? v) && (v <=? Int64.max_int) then v
      else Int64.min_int
  | _ => Int64.min_int
  end.

End Float64.

(** ** internal/disk: the size formatter *)

Definition byte_of (z : Z) : ascii := ascii_of_N (Z.to_N (z mod 256)).

Definition zero_char : Z := 48.

(** The loop of [intToString]: [for n > 0 { digits = append([]byte{byte('0' +
    n%10)}, digits...); n /= 10 }].  Each round divides [n] by ten, so a
    number of rounds equal to the bit length of [n] always reaches [n = 0]
    (see [intToString_loop_fuel]). *)
Fixpoint intToString_loop (fuel : nat) (n : Z) (digits : string) : string :=
  match fuel with
  | O => digits
  | S fuel' =>
      if n >? 0
      then intToString_loop fuel' (Z.quot n 10)
             (String (byte_of (zero_char + Z.rem n 10)) digits)
      else digits
  end.

Definition bit_length (n : Z) : nat := Z.to_nat (Z.log2 n) + 1.

Definition intToString (n : Z) : string :=
  if n =? 0 then "0"
  else
    let negative := n <? 0 in
    let n := if negative then Int64.neg n else n in
    let digits := intToString_loop (bit_length n) n "" in
    if negative then "-" ++ digits else digits.

Definition padZero (n : Z) : string :=
  let s := intToString n in
  if (String.length s =? 1)%nat then "0" ++ s else s.

Definition floatToString (f : Float64.t) : string :=
  let intPart := Float64.to_int64 f in
  let fracPart :=
    Float64.to_int64
      (Float64.mul (Float64.sub f (Float64.of_int intPart)) (Float64.of_int 100)) in
  let fracPart := if fracPart <? 0 then Int64.neg fracPart else fracPart in
  let result := intToString intPart in
  if fracPart >? 0 then result ++ "." ++ padZero fracPart else result.

(** [string(rune(c))] for a code point below 128 is the one-byte string. *)
Definition string_of_rune (c : Z) : string := String (byte_of c) "".

Definition formatFloat (f : Float64.t) : string :=
  if Float64.eqb f (Float64.of_int (Float64.to_int64 f))
  then string_of_rune (zero_char + Z.rem (Float64.to_int64 f) 10) ++ ""
  else floatToString f.

Definition KB : Z := 1024.
Definition MB : Z := KB * 1024.
Definition GB : Z := MB * 1024.
Definition TB : Z := GB * 1024.

Definition FormatSize (bytes : Z) : string :=
  if bytes >=? TB then
    formatFloat (Float64.div (Float64.of_int bytes) (Float64.of_int TB)) ++ " TB"
  else if bytes >=? GB then
    formatFloat (Float64.div (Float64.of_int bytes) (Float64.of_int GB)) ++ " GB"
  else if bytes >=? MB then
    formatFloat (Float64.div (Float64.of_int bytes) (Float64.of_int MB)) ++ " MB"
  else if bytes >=? KB then
    formatFloat (Float64.div (Float64.of_int bytes) (Float64.of_int KB)) ++ " KB"
  else
    formatFloat (Float64.of_int bytes) ++ " B".

(** ** Go slices

    A slice is [nil] or holds a sequence; the two print differently in JSON
    and the data model keeps them apart. *)

Definition slice (A : Type) : Type := option (list A).

Definition elems {A : Type} (s : slice A) : list A :=
  match s with
  | None => []
  | Some l => l
  end.

Definition len {A : Type} (s : slice A) : nat := List.length (elems s).

(** ** Errors *)

(** [*fs.PathError], the error type of [os.Stat], [os.Lstat] and [os.ReadDir],
    and the two sentinels [filepath.Walk] gives a meaning to. *)
Inductive error : Type :=
| PathError (op path err : string)
| SkipDir
| SkipAll.

(** [err.Error()]. *)
Module Err.
Definition Error (e : error) : string :=
  match e with
  | PathError op path err => op ++ " " ++ path ++ ": " ++ err
  | SkipDir => "skip this directory"
  | SkipAll => "skip everything and stop the walk"
  end.
End Err.

Definition is_SkipDir (e : error) : bool :=
  match e with
  | SkipDir => true
  | _ => false
  end.

(** ** The file system the analyzer reads

    A directory tree as the operating system presents it during one request:
    each node answers [Lstat] with its size or with an error, a directory
    answers a listing with its entries (in the order [os.ReadDir] returns
    them) or with an error.  Every non-directory is a [File]. *)

Module FileInfo.
Record t : Type := Build { Name : string; Size : Z; IsDir : bool }.
End FileInfo.

Inductive Node : Type :=
| File (name : string) (stat : error + Z)
| Dir (name : string) (stat : error + Z) (listing : error + list Node).

Definition Lstat (n : Node) : error + FileInfo.t :=
  match n with
  | File name (inr size) => inr (FileInfo.Build name size false)
  | Dir name (inr size) _ => inr (FileInfo.Build name size true)
  | File _ (inl e) | Dir _ (inl e) _ => inl e
  end.

(** [os.Stat] on the path of the request has followed symbolic links
    already; the root node stands for what it found. *)
Definition Stat (n : Node) : error + FileInfo.t := Lstat n.

Definition ReadDir (n : Node) : error + list Node :=
  match n with
  | File name _ => inl (PathError "open" name "not a directory")
  | Dir _ _ listing => listing
  end.

(** [os.DirEntry]: an entry of a listing knows its name and its type, and
    asks the system for its [FileInfo]. *)
Module DirEntry.
Definition Name (e : Node) : string :=
  match e with
  | File name _ | Dir name _ _ => name
  end.
Definition IsDir (e : Node) : bool :=
  match e with
  | File _ _ => false
  | Dir _ _ _ => true
  end.
Definition Info (e : Node) : error + FileInfo.t := Lstat e.
End DirEntry.

(** ** internal/disk: the data model *)

Inductive DirInfo : Type :=
  Build_DirInfo {
    Name : string;
    Path : string;
    Size : Z;
    SizeStr : string;
    IsDir : bool;
    Children : option (list DirInfo)
  }.

Record UsageResult : Type :=
  Build_UsageResult {
    RootPath : string;
    TotalSize : Z;
    TotalStr : string;
    Items : slice DirInfo;
    Error : string
  }.

(** The comparison handed to [sort.Slice]: [items[i].Size > items[j].Size]. *)
Definition bySizeDesc (a b : DirInfo) : bool := Size a >? Size b.

(** ** internal/api: the arguments of the analyzer call *)

Definition digit_of (c : ascii) : option Z :=
  let n := Z.of_N (N_of_ascii c) in
  if (48 <=? n) && (n <=? 57) then Some (n - 48) else None.

Fixpoint parse_digits (s : string) (acc : Z) : option Z :=
  match s with
  | EmptyString => Some acc
  | String c s' =>
      match digit_of c with
      | Some d => parse_digits s' (acc * 10 + d)
      | None => None
      end
  end.

(** [strconv.Atoi]: an optional sign, then one or more decimal digits; a
    syntax error or a value outside [int] is an error ([None]). *)
Definition Atoi (s : string) : option Z :=
  match s with
  | EmptyString => None
  | String c rest =>
      let neg := Ascii.eqb c "-" in
      let body := if neg || Ascii.eqb c "+" then rest else s in
      match body with
      | EmptyString => None
      | _ =>
          match parse_digits body 0 with
          | Some n =>
              let v := if neg then - n else n in
              if (Int64.min_int <=? v) && (v <=? Int64.max_int) then Some v
              else None
          | None => None
          end
      end
  end.

(** What [handleAnalyze] reads of a request; [Query().Get] gives the empty
    string for a parameter that is absent. *)
Record Request : Type :=
  Build_Request { Method : string; QueryPath : string; QueryDepth : string }.

(** Lines 55-61 of the handler. *)
Definition requestDepth (depthStr : string) : Z :=
  let depth := 1 in
  if negb (depthStr =? "")%string then
    match Atoi depthStr with
    | Some d => if (d >? 0) && (d <=? 5) then d else depth
    | None => depth
    end
  else depth.

Definition requestPath (path : string) : string :=
  if (path =? "")%string then "/" else path.

(** The arguments [handleAnalyze] passes to [disk.AnalyzeDiskUsage], or
    [None] when it answers 405 without calling it. *)
Definition analyzeCall (r : Request) : option (string * Z) :=
  if negb (Method r =? "GET")%string then None
  else Some (requestPath (QueryPath r), requestDepth (QueryDepth r)).

(** Clamping as the specification words it: the nearest value of [1, 5]. *)
Definition clampDepth (d : Z) : Z := Z.max 1 (Z.min 5 d).

(** ** Collaborators from the Go library *)

(** The order in which the tasks of [AnalyzeDiskUsage] append to [items]
    is the scheduler's choice.  [picks] names one order: the task of the
    k-th entry lands at position [nth k picks] among the appends of the
    entries after it (at the end when the position is past them). *)
Definition insertAt {A : Type} (k : nat) (x : A) (l : list A) : list A :=
  (firstn k l ++ x :: skipn k l)%list.

Fixpoint appendOrder {A : Type} (picks : list nat) (tasks : list A) : list A :=
  match tasks with
  | [] => []
  | t :: rest => insertAt (hd O picks) t (appendOrder (tl picks) rest)
  end.

(** A comparison [less] that [sort.Slice] accepts: a strict weak ordering. *)
Record StrictWeak {A : Type} (less : A -> A -> bool) : Prop :=
  Build_StrictWeak {
    sw_irrefl : forall a, less a a = false;
    sw_trans : forall a b c, less a b = true -> less b c = true -> less a c = true;
    sw_incomp : forall a b c, less a b = false -> less b c = false -> less a c = false
  }.

(** What [sort.Slice] leaves behind: no later element is less than an
    earlier one. *)
Definition SortedBy {A : Type} (less : A -> A -> bool) (l : list A) : Prop :=
  StronglySorted (fun a b => less b a = false) l.

(** Insertion sort, the algorithm [sort.Slice] runs on a slice of at most
    twelve elements: each element moves left while it is less than its
    left neighbour.  [prefix] is the sorted part, nearest neighbour first. *)
Fixpoint insertLeft {A : Type} (less : A -> A -> bool) (x : A) (prefix : list A)
  : list A :=
  match prefix with
  | [] => [x]
  | y :: prefix' =>
      if less x y then y :: insertLeft less x prefix' else x :: prefix
  end.

Definition insertionSort (A : Type) (less : A -> A -> bool) (l : list A) : list A :=
  rev (fold_left (fun prefix x => insertLeft less x prefix) l []).

(** A [filepath.Join] for the examples: the two parts around a slash. *)
Definition joinSlash (dir name : string) : string := dir ++ "/" ++ name.

(** A [strings.TrimSpace] for the examples, on strings of ASCII bytes: the
    white space of ASCII is dropped at both ends. *)
Definition isAsciiSpace (c : ascii) : bool :=
  let n := nat_of_ascii c in
  ((9 <=? n) && (n <=? 13) || (n =? 32))%nat.

Fixpoint trimLeft (s : string) : string :=
  match s with
  | String c rest => if isAsciiSpace c then trimLeft rest else s
  | EmptyString => EmptyString
  end.

Definition reverse (s : string) : string :=
  string_of_list_ascii (rev (list_ascii_of_string s)).

Definition trimAsciiSpace (s : string) : string :=
  reverse (trimLeft (reverse (trimLeft s))).

(** ** The tasks of AnalyzeDiskUsage, step by step

    The loop over the entries of the root launches one task per entry; a
    task sends on the semaphore channel (capacity 10), computes its entry,
    appends under the mutex, and its deferred calls receive from the channel
    and call [wg.Done]; the caller passes [wg.Wait] when the counter is
    zero.  The model is generic in the entries [E], the computed items [A]
    and the computation [work]. *)

Module Fanout.

Definition semaphoreCap : nat := 10.

Inductive pc : Type :=
| AtAcquire   (* semaphore <- struct{}{} *)
| AtWork      (* the size computation and the children *)
| AtLock      (* mu.Lock() *)
| AtAppend    (* items = append(items, dirInfo); totalSize += size *)
| AtUnlock    (* mu.Unlock() *)
| AtRelease   (* deferred: <-semaphore *)
| AtDone      (* deferred: wg.Done() *)
| Exited.

(** The points at which a task holds a slot of the semaphore. *)
Definition holdsSlot (p : pc) : bool :=
  match p with
  | AtWork | AtLock | AtAppend | AtUnlock | AtRelease => true
  | _ => false
  end.

Definition isWorking (p : pc) : bool :=
  match p with
  | AtWork => true
  | _ => false
  end.

Definition inCritical (p : pc) : bool :=
  match p with
  | AtAppend | AtUnlock => true
  | _ => false
  end.

Definition hasAppended (p : pc) : bool :=
  match p with
  | AtUnlock | AtRelease | AtDone | Exited => true
  | _ => false
  end.

Definition isExited (p : pc) : bool :=
  match p with
  | Exited => true
  | _ => false
  end.

Inductive action : Type :=
| Spawn            (* the loop: wg.Add(1); go func(e) {...}(entry) *)
| Wait             (* wg.Wait() returns *)
| Run (i : nat).   (* the i-th task takes its next step *)

(** The schedule in which each task runs to its end before the loop
    launches the next one: [n] tasks, the first with index [first]. *)
Fixpoint oneByOne (first n : nat) : list action :=
  match n with
  | O => []
  | S n' => (Spawn :: repeat (Run first) 7 ++ oneByOne (S first) n')%list
  end.

Section Model.

Variables E A : Type.
Variable work : E -> A.
Variable sizeOf : A -> Z.

Record state : Type :=
  Build_state {
    pending : list E;          (* entries the loop has not reached yet *)
    waited : bool;             (* wg.Wait() has returned *)
    tasks : list (E * pc);     (* the tasks launched, in launch order *)
    sem : nat;                 (* elements buffered in the channel *)
    wg : nat;                  (* the WaitGroup counter *)
    mu : bool;                 (* the mutex is held *)
    items : list A;
    totalSize : Z
  }.

Definition init (entries : list E) : state :=
  Build_state entries false [] 0 0 false [] 0.

Fixpoint setPc (i : nat) (p : pc) (ts : list (E * pc)) : list (E * pc) :=
  match ts, i with
  | [], _ => []
  | (e, _) :: ts', O => (e, p) :: ts'
  | t :: ts', S i' => t :: setPc i' p ts'
  end.

Definition fire (a : action) (s : state) : option state :=
  match a with
  | Spawn =>
      match pending s with
      | e :: rest =>
          Some (Build_state rest (waited s) (tasks s ++ [(e, AtAcquire)])
                  (sem s) (S (wg s)) (mu s) (items s) (totalSize s))
      | [] => None
      end
  | Wait =>
      match pending s, wg s, waited s with
      | [], O, false =>
          Some (Build_state [] true (tasks s) (sem s) O (mu s) (items s)
                  (totalSize s))
      | _, _, _ => None
      end
  | Run i =>
      match nth_error (tasks s) i with
      | Some (e, AtAcquire) =>
          if (sem s <? semaphoreCap)%nat
          then Some (Build_state (pending s) (waited s)
                       (setPc i AtWork (tasks s)) (S (sem s)) (wg s) (mu s)
                       (items s) (totalSize s))
          else None
      | Some (e, AtWork) =>
          Some (Build_state (pending s) (waited s) (setPc i AtLock (tasks s))
                  (sem s) (wg s) (mu s) (items s) (totalSize s))
      | Some (e, AtLock) =>
          if mu s then None
          else Some (Build_state (pending s) (waited s)
                       (setPc i AtAppend (tasks s)) (sem s) (wg s) true
                       (items s) (totalSize s))
      | Some (e, AtAppend) =>
          Some (Build_state (pending s) (waited s) (setPc i AtUnlock (tasks s))
                  (sem s) (wg s) (mu s) (items s ++ [work e])
                  (Int64.add (totalSize s) (sizeOf (work e))))
      | Some (e, AtUnlock) =>
          Some (Build_state (pending s) (waited s)
                  (setPc i AtRelease (tasks s)) (sem s) (wg s) false
                  (items s) (totalSize s))
      | Some (e, AtRelease) =>
          match sem s with
          | S k =>
              Some (Build_state (pending s) (waited s)
                      (setPc i AtDone (tasks s)) k (wg s) (mu s) (items s)
                      (totalSize s))
          | O => None
          end
      | Some (e, AtDone) =>
          match wg s with
          | S k =>
              Some (Build_state (pending s) (waited s)
                      (setPc i Exited (tasks s)) (sem s) k (mu s) (items s)
                      (totalSize s))
          | O => None
          end
      | Some (_, Exited) | None => None
      end
  end.

Fixpoint run (acts : list action) (s : state) : option state :=
  match acts with
  | [] => Some s
  | a :: acts' =>
      match fire a s with
      | Some s' => run acts' s'
      | None => None
      end
  end.

(** The states an execution over [entries] passes through. *)
Definition reachable (entries : list E) (s : state) : Prop :=
  exists acts, run acts (init entries) = Some s.

Definition countPc (f : pc -> bool) (ts : list (E * pc)) : nat :=
  List.length (filter (fun t => f (snd t)) ts).

(** The size computations in flight. *)
Definition working (s : state) : nat := countPc isWorking (tasks s).

(** The entries whose task is past its append. *)
Definition appended (ts : list (E * pc)) : list E :=
  map fst (filter (fun t => hasAppended (snd t)) ts).

(** The statements a task at [p] has still to run. *)
Definition remaining (p : pc) : nat :=
  match p with
  | AtAcquire => 7
  | AtWork => 6
  | AtLock => 5
  | AtAppend => 4
  | AtUnlock => 3
  | AtRelease => 2
  | AtDone => 1
  | Exited => 0
  end.

(** The steps an execution has still to take from [s]. *)
Definition stepsLeft (s : state) : nat :=
  8 * List.length (pending s)
  + list_sum (map (fun t => remaining (snd t)) (tasks s))
  + (if waited s then 0 else 1).

(** What every reachable state satisfies. *)
Record invariant (entries : list E) (s : state) : Prop :=
  Build_invariant {
    inv_entries : (map fst (tasks s) ++ pending s)%list = entries;
    inv_sem : sem s = countPc holdsSlot (tasks s);
    inv_cap : (sem s <= semaphoreCap)%nat;
    inv_wg : wg s = countPc (fun p => negb (isExited p)) (tasks s);
    inv_mu : countPc inCritical (tasks s) = Nat.b2n (mu s);
    inv_waited : waited s = true -> pending s = [] /\ wg s = O;
    inv_items : Permutation (items s) (map work (appended (tasks s)));
    inv_total : totalSize s = Int64.sum (map sizeOf (items s))
  }.

End Model.

Arguments pending {E A} _.
Arguments waited {E A} _.
Arguments tasks {E A} _.
Arguments sem {E A} _.
Arguments wg {E A} _.
Arguments mu {E A} _.
Arguments items {E A} _.
Arguments totalSize {E A} _.
Arguments init {E A} _.
Arguments setPc {E} _ _ _.
Arguments fire {E A} _ _ _ _.
Arguments run {E A} _ _ _ _.
Arguments reachable {E A} _ _ _ _.
Arguments countPc {E} _ _.
Arguments working {E A} _.
Arguments appended {E} _.
Arguments invariant {E A} _ _ _ _.
Arguments stepsLeft {E A} _.

End Fanout.

(** ** The properties of the specification, in the terms of the model *)

(** The exact sum of a sequence of integers. *)
Definition Zsum (l : list Z) : Z := fold_right Z.add 0 l.

(** The bytes of every regular file the walk from [n] reaches: an entry
    that cannot be stat'ed and a directory that cannot be listed add none. *)
Fixpoint treeBytes (n : Node) : Z :=
  match n with
  | File _ (inr size) => size
  | File _ (inl _) => 0
  | Dir _ (inl _) _ => 0
  | Dir _ (inr _) (inl _) => 0
  | Dir _ (inr _) (inr entries) => Zsum (map treeBytes entries)
  end.

(** The size the analyzer reports for an entry. *)
Definition entryBytes (e : Node) : Z :=
  if DirEntry.IsDir e then Int64.wrap (treeBytes e)
  else match Lstat e with
       | inr info => FileInfo.Size info
       | inl _ => 0
       end.

(** An entry the system refuses: no [Lstat], or a directory with no listing. *)
Definition inaccessible (n : Node) : bool :=
  match n with
  | File _ (inl _) => true
  | Dir _ (inl _) _ => true
  | Dir _ _ (inl _) => true
  | _ => false
  end.

(** The result tree cut below [depth] levels: what a call with the smaller
    depth is to return. *)
Fixpoint pruneTo (depth : Z) (d : DirInfo) : DirInfo :=
  match d with
  | Build_DirInfo name path size sizeStr isDir children =>
      Build_DirInfo name path size sizeStr isDir
        (if depth >? 1 then
           match children with
           | Some cs => Some (map (pruneTo (depth - 1)) cs)
           | None => None
           end
         else None)
  end.

(** [items[i].size >= items[i+1].size] for every valid [i]. *)
Definition sortedDesc (l : list DirInfo) : Prop :=
  forall i a b,
    nth_error l i = Some a -> nth_error l (S i) = Some b -> Size a >= Size b.

Definition stringsAgree (l : list DirInfo) : Prop :=
  Forall (fun d => SizeStr d = FormatSize (Size d)) l.

(** [P] holds of a sequence of entries and of every populated [children]
    sequence below it. *)
Inductive EveryLevel (P : list DirInfo -> Prop) : list DirInfo -> Prop :=
| EveryLevel_intro : forall l,
    P l ->
    Forall (fun d => forall cs, Children d = Some cs -> EveryLevel P cs) l ->
    EveryLevel P l.

(** [d] reports the node [n]: its name, its kind, the bytes under it, and,
    where children are populated, a report of each entry of its listing. *)
Inductive Reports : Node -> DirInfo -> Prop :=
| Reports_intro : forall n d,
    Name d = DirEntry.Name n ->
    IsDir d = DirEntry.IsDir n ->
    Size d = entryBytes n ->
    (forall cs, Children d = Some cs ->
       exists entries l,
         ReadDir n = inr entries /\ Permutation l cs /\ Forall2 Reports entries l) ->
    Reports n d.

(** A directory tree used in the examples. *)
Definition sample : Node :=
  Dir "data" (inr 4096)
    (inr [ File "a.txt" (inr 1536);
           Dir "big" (inr 4096)
             (inr [ File "x" (inr 10240); File "y" (inr 1024);
                    Dir "deep" (inr 4096) (inr [ File "z" (inr 3000000) ]) ]);
           Dir "locked" (inr 4096)
             (inl (PathError "open" "/data/locked" "permission denied"));
           File "gone"
             (inl (PathError "lstat" "/data/gone" "no such file or directory")) ]).

Definition missing : Node :=
  File "exist"
    (inl (PathError "stat" "/definitely/does/not/exist" "no such file or directory")).

(** ** internal/disk: the operating system information *)

Record OSInfo : Type :=
  Build_OSInfo {
    OS : string;
    IsWindows : bool;
    DefaultPath : string;
    Drives : slice string
  }.

Definition backslash : string := String (ascii_of_nat 92) "".

(** [len(s) >= 2 && s[1] == ':']. *)
Definition hasColonSecond (s : string) : bool :=
  (2 <=? String.length s)%nat &&
  match String.get 1 s with
  | Some c => Ascii.eqb c ":"
  | None => false
  end.

(** [strings.ReplaceAll(s, old, new)] for one-byte [old] and [new]. *)
Fixpoint ReplaceAll1 (s : string) (old new : ascii) : string :=
  match s with
  | EmptyString => EmptyString
  | String c s' =>
      String (if Ascii.eqb c old then new else c) (ReplaceAll1 s' old new)
  end.

(** [strings.HasPrefix(s, prefix)]. *)
Definition HasPrefix (s prefix : string) : bool := String.prefix prefix s.

(** The name of the drive of a letter: the letter, a colon, a backslash. *)
Definition driveName (letter : Z) : string :=
  string_of_rune letter ++ ":" ++ backslash.

(** The runes ['A'] to ['Z'], as the loop of [GetWindowsDrives] meets them. *)
Definition driveLetters : list Z := map Z.of_nat (seq 65 26).

Section Host.

(** [runtime.GOOS], the result of [os.Getwd], [os.Stat] by path,
    [strings.TrimSpace] and [filepath.Clean]. *)
Variable GOOS : string.
Variable Getwd : error + string.
Variable StatPath : string -> error + FileInfo.t.
Variable TrimSpace : string -> string.
Variable Clean : string -> string.

Definition GetWindowsDrives : slice string :=
  let drives := [] in
  Some
    (fold_left
       (fun drives letter =>
          let drive := driveName letter in
          match StatPath drive with
          | inr _ => (drives ++ [drive])%list
          | inl _ => drives
          end)
       driveLetters drives).

Definition GetOSInfo : OSInfo :=
  let osName := GOOS in
  let isWindows := (osName =? "windows")%string in
  let defaultPath := "/" in
  let defaultPath :=
    if isWindows then
      match Getwd with
      | inr wd =>
          if hasColonSecond wd then substring 0 2 wd ++ backslash
          else "C:" ++ backslash
      | inl _ => "C:" ++ backslash
      end
    else defaultPath in
  Build_OSInfo osName isWindows defaultPath
    (if isWindows then GetWindowsDrives else None).

Definition NormalizePath (path : string) : string :=
  let path := TrimSpace path in
  if (GOOS =? "windows")%string then
    let path := ReplaceAll1 path "/" (ascii_of_nat 92) in
    if (path =? "")%string || (path =? "/")%string || (path =? backslash)%string
    then
      match Getwd with
      | inr wd =>
          if hasColonSecond wd then substring 0 2 wd ++ backslash
          else "C:" ++ backslash
      | inl _ => "C:" ++ backslash
      end
    else
      let hasDrive := hasColonSecond path in
      let path :=
        if negb hasDrive then
          match Getwd with
          | inr wd =>
              if hasColonSecond wd then
                let drive := substring 0 2 wd in
                if HasPrefix path backslash then drive ++ path
                else drive ++ backslash ++ path
              else
                if HasPrefix path backslash then "C:" ++ path
                else "C:" ++ backslash ++ path
          | inl _ =>
              if HasPrefix path backslash then "C:" ++ path
              else "C:" ++ backslash ++ path
          end
        else path in
      Clean path
  else
    if (path =? "")%string then "/"
    else
      let path := if negb (HasPrefix path "/") then "/" ++ path else path in
      Clean path.

End Host.

(** ** The size formatter in integer arithmetic

    What [FormatSize] prints, computed without floating point: the unit is
    1024 to the power [unitShift / 10], the whole part is a quotient, the
    hundredths are a truncated quotient. *)

Definition unitShift (bytes : Z) : Z :=
  if bytes >=? TB then 40
  else if bytes >=? GB then 30
  else if bytes >=? MB then 20
  else if bytes >=? KB then 10
  else 0.

Definition unitName (bytes : Z) : string :=
  if bytes >=? TB then " TB"
  else if bytes >=? GB then " GB"
  else if bytes >=? MB then " MB"
  else if bytes >=? KB then " KB"
  else " B".

Definition formatExact (bytes : Z) : string :=
  let k := unitShift bytes in
  let whole := bytes / 2 ^ k in
  let rest := bytes mod 2 ^ k in
  let hundredths := rest * 100 / 2 ^ k in
  (if rest =? 0 then string_of_rune (zero_char + whole mod 10)
   else if hundredths >? 0 then intToString whole ++ "." ++ padZero hundredths
   else intToString whole)
  ++ unitName bytes.

(** The float64 of value [v * 2 ^ s], for [0 < v < 2 ^ 53], in the form
    the conversions and the operations return it: a mantissa of 53 bits. *)
Definition canon (v s : Z) : Float64.t :=
  let j := 52 - Z.log2 v in
  S754_finite false (Z.to_pos (v * 2 ^ j)) (s - j).

(** ** Further properties of the result tree *)

(** Every directory of the tree that can be listed can be stat'ed. *)
Fixpoint statsListedDirs (n : Node) : bool :=
  match n with
  | File _ _ => true
  | Dir _ _ (inl _) => true
  | Dir _ (inl _) (inr _) => false
  | Dir _ (inr _) (inr entries) => forallb statsListedDirs entries
  end.

(** The levels of children below an entry. *)
Fixpoint height (d : DirInfo) : nat :=
  match d with
  | Build_DirInfo _ _ _ _ _ None => O
  | Build_DirInfo _ _ _ _ _ (Some cs) => S (list_max (map height cs))
  end.

(** The root cannot be analyzed: [os.Stat] fails, or it is a directory and
    [os.ReadDir] fails. *)
Definition rootFails (fs : Node) (err : error) : Prop :=
  Stat fs = inl err \/
  ((exists info, Stat fs = inr info) /\ DirEntry.IsDir fs = true /\
   ReadDir fs = inl err).

(** The size of an expanded entry is the sum of the sizes of its children,
    at every level. *)
Inductive SumsUp : DirInfo -> Prop :=
| SumsUp_intro : forall d,
    (forall cs, Children d = Some cs ->
       Size d = Int64.sum (map Size cs) /\ Forall SumsUp cs) ->
    SumsUp d.

(** The path of every entry is its parent's path joined with its name. *)
Inductive PathsUnder (join : string -> string -> string)
  : string -> list DirInfo -> Prop :=
| PathsUnder_intro : forall parent l,
    Forall (fun d => Path d = join parent (Name d) /\
                     forall cs, Children d = Some cs ->
                                PathsUnder join (Path d) cs) l ->
    PathsUnder join parent l.

(** ** internal/api: the response *)

Inductive Body : Type :=
| Text (s : string)                 (* the message of http.Error *)
| ErrorObject (message : string)    (* {"error": message} *)
| ResultObject (result : UsageResult).

Record Response : Type :=
  Build_Response { Status : Z; ContentType : string; Payload : Body }.

(** ** internal/disk: the analyzer *)

Section Analyzer.

(** [filepath.Clean], [filepath.Join] and [sort.Slice]. *)
Variable Clean : string -> string.
Variable Join : string -> string -> string.
Variable sortSlice : forall A : Type, (A -> A -> bool) -> list A -> list A.

(** *** filepath.Walk *)

(** The callback receives the path, the [FileInfo] (nil when [Lstat]
    failed) and the error of the visit; it updates the variables it has
    captured, here a state [S], and returns an error or nil. *)
Definition WalkFunc (S : Type) : Type :=
  string -> option FileInfo.t -> option error -> S -> S * option error.

Fixpoint walk {S : Type} (path : string) (info : FileInfo.t) (n : Node)
    (walkFn : WalkFunc S) (s : S) {struct n} : S * option error :=
  match n with
  | File _ _ => walkFn path (Some info) None s
  | Dir _ _ (inl err) => walkFn path (Some info) (Some err) s
  | Dir _ _ (inr names) =>
      let '(s, err1) := walkFn path (Some info) None s in
      match err1 with
      | Some _ => (s, err1)
      | None =>
          (fix range (names : list Node) (s : S) {struct names}
             : S * option error :=
             match names with
             | [] => (s, None)
             | child :: names' =>
                 let filename := Join path (DirEntry.Name child) in
                 match Lstat child with
                 | inl err =>
                     let '(s, err) := walkFn filename None (Some err) s in
                     match err with
                     | Some e =>
                         if negb (is_SkipDir e) then (s, Some e)
                         else range names' s
                     | None => range names' s
                     end
                 | inr fileInfo =>
                     let '(s, err) := walk filename fileInfo child walkFn s in
                     match err with
                     | Some e =>
                         if negb (FileInfo.IsDir fileInfo) || negb (is_SkipDir e)
                         then (s, Some e)
                         else range names' s
                     | None => range names' s
                     end
                 end
             end) names s
      end
  end.

Definition Walk {S : Type} (root : string) (n : Node) (fn : WalkFunc S) (s : S)
  : S * option error :=
  let '(s, err) :=
    match Lstat n with
    | inl err => fn root None (Some err) s
    | inr info => walk root info n fn s
    end in
  match err with
  | Some SkipDir | Some SkipAll => (s, None)
  | _ => (s, err)
  end.

(** *** GetDirSize *)

(** The function literal passed to [filepath.Walk]; the captured [size]
    is the state.  [info] is never nil when [err] is. *)
Definition sizeVisitor : WalkFunc Z :=
  fun _ info err size =>
    match err with
    | Some _ => (size, None)
    | None =>
        match info with
        | Some info =>
            if negb (FileInfo.IsDir info)
            then (Int64.add size (FileInfo.Size info), None)
            else (size, None)
        | None => (size, None)
        end
    end.

Definition GetDirSize (path : string) (n : Node) : Z * option error :=
  Walk path n sizeVisitor 0.

(** *** getChildrenInfo *)

Fixpoint getChildrenInfo (path : string) (n : Node) (depth : Z) {struct n}
  : option (list DirInfo) :=
  match n with
  | File _ _ => None
  | Dir _ _ (inl _) => None
  | Dir _ _ (inr entries) =>
      let children :=
        map (fun entry =>
               let entryPath := Join path (DirEntry.Name entry) in
               let '(size, subChildren) :=
                 if DirEntry.IsDir entry then
                   (fst (GetDirSize entryPath entry),
                    if depth >? 1
                    then getChildrenInfo entryPath entry (depth - 1)
                    else None)
                 else
                   (match DirEntry.Info entry with
                    | inr info => FileInfo.Size info
                    | inl _ => 0
                    end,
                    None) in
               Build_DirInfo (DirEntry.Name entry) entryPath size
                 (FormatSize size) (DirEntry.IsDir entry) subChildren)
            entries in
      Some (sortSlice DirInfo bySizeDesc children)
  end.

(** *** AnalyzeDiskUsage *)

(** The body of the task launched for one entry of the root. *)
Definition analyzeEntry (rootPath : string) (depth : Z) (e : Node) : DirInfo :=
  let entryPath := Join rootPath (DirEntry.Name e) in
  let '(size, children) :=
    if DirEntry.IsDir e then
      (fst (GetDirSize entryPath e),
       if depth >? 1 then getChildrenInfo entryPath e (depth - 1) else None)
    else
      (match DirEntry.Info e with
       | inr info => FileInfo.Size info
       | inl _ => 0
       end,
       None) in
  Build_DirInfo (DirEntry.Name e) entryPath size (FormatSize size)
    (DirEntry.IsDir e) children.

(** [fs] is what the system holds at [rootPath]; [picks] is the order in
    which the tasks reach the locked append. *)
Definition AnalyzeDiskUsage (fs : Node) (picks : list nat)
    (rootPath : string) (depth : Z) : UsageResult * option error :=
  let rootPath := Clean rootPath in
  match Stat fs with
  | inl err => (Build_UsageResult rootPath 0 "" None (Err.Error err), Some err)
  | inr info =>
      if negb (FileInfo.IsDir info) then
        (Build_UsageResult rootPath (FileInfo.Size info)
           (FormatSize (FileInfo.Size info))
           (Some [Build_DirInfo (FileInfo.Name info) rootPath
                    (FileInfo.Size info) (FormatSize (FileInfo.Size info))
                    false None])
           "",
         None)
      else
        match ReadDir fs with
        | inl err => (Build_UsageResult rootPath 0 "" None (Err.Error err), Some err)
        | inr entries =>
            let items :=
              appendOrder picks (map (analyzeEntry rootPath depth) entries) in
            let totalSize := Int64.sum_from 0 (map Size items) in
            let items := sortSlice DirInfo bySizeDesc items in
            (Build_UsageResult rootPath totalSize (FormatSize totalSize)
               (Some items) "",
             None)
        end
  end.

(** *** handleAnalyze *)

(** [lookup] is what the system holds at a path. *)
Definition handleAnalyze (lookup : string -> Node) (picks : list nat)
    (r : Request) : Response :=
  match analyzeCall r with
  | None => Build_Response 405 "text/plain; charset=utf-8" (Text "Method not allowed")
  | Some (path, depth) =>
      match AnalyzeDiskUsage (lookup path) picks path depth with
      | (_, Some err) =>
          Build_Response 400 "application/json" (ErrorObject (Err.Error err))
      | (result, None) =>
          Build_Response 200 "application/json" (ResultObject result)
      end
  end.

(** *** What the collaborators guarantee *)

(** [sort.Slice] permutes the slice, leaves it sorted when [less] is a
    strict weak ordering, and looks at the elements through [less] only. *)
Hypothesis sortSlice_perm :
  forall (A : Type) (less : A -> A -> bool) (l : list A),
    Permutation (sortSlice A less l) l.
Hypothesis sortSlice_sorted :
  forall (A : Type) (less : A -> A -> bool) (l : list A),
    StrictWeak less -> SortedBy less (sortSlice A less l).
Hypothesis sortSlice_natural :
  forall (A B : Type) (f : A -> B) (lessA : A -> A -> bool)
         (lessB : B -> B -> bool) (l : list A),
    (forall a a', lessB (f a) (f a') = lessA a a') ->
    sortSlice B lessB (map f l) = map f (sortSlice A lessA l).

(** *** int64 arithmetic *)

Lemma wrap_in_range : forall z, Int64.in_range (Int64.wrap z).
Proof.
  intros z. unfold Int64.in_range, Int64.wrap, Int64.min_int, Int64.max_int.
  pose proof (Z.mod_pos_bound (z + 2 ^ 63) (2 ^ 64) ltac:(lia)). lia.
Qed.

Lemma wrap_id : forall z, Int64.in_range z -> Int64.wrap z = z.
Proof.
  intros z. unfold Int64.in_range, Int64.wrap, Int64.min_int, Int64.max_int.
  intros H. rewrite Z.mod_small; lia.
Qed.

Lemma wrap_add_l : forall a b, Int64.wrap (Int64.wrap a + b) = Int64.wrap (a + b).
Proof.
  intros a b. unfold Int64.wrap. f_equal.
  replace ((a + 2 ^ 63) mod 2 ^ 64 - 2 ^ 63 + b + 2 ^ 63)
    with ((a + 2 ^ 63) mod 2 ^ 64 + b) by lia.
  rewrite Zplus_mod_idemp_l. f_equal. lia.
Qed.

Lemma sum_from_wrap : forall l acc,
  Int64.in_range acc -> Int64.sum_from acc l = Int64.wrap (acc + Zsum l).
Proof.
  unfold Int64.sum_from.
  induction l as [|x l IH]; intros acc Hacc; simpl.
  - rewrite Z.add_0_r. symmetry. now apply wrap_id.
  - rewrite IH by apply wrap_in_range.
    unfold Int64.add. rewrite wrap_add_l. f_equal. lia.
Qed.

Lemma sum_wrap : forall l, Int64.sum l = Int64.wrap (Zsum l).
Proof.
  intros l. unfold Int64.sum. rewrite sum_from_wrap.
  - reflexivity.
  - unfold Int64.in_range, Int64.min_int, Int64.max_int. lia.
Qed.

Lemma Zsum_perm : forall l l', Permutation l l' -> Zsum l = Zsum l'.
Proof.
  induction 1; simpl; lia.
Qed.

Lemma Zsum_app : forall l l', Zsum (l ++ l') = Zsum l + Zsum l'.
Proof.
  induction l as [|x l IH]; intros l'; simpl; [reflexivity|].
  rewrite IH. lia.
Qed.

(** *** Induction over a directory tree *)

Lemma Node_tree_ind (P : Node -> Prop) :
  (forall name st, P (File name st)) ->
  (forall name st err, P (Dir name st (inl err))) ->
  (forall name st entries, Forall P entries -> P (Dir name st (inr entries))) ->
  forall n, P n.
Proof.
  intros HF HE HD. fix IH 1. intros [name st | name st [err | entries]].
  - apply HF.
  - apply HE.
  - apply HD. induction entries as [|e entries IHe]; constructor.
    + apply IH.
    + apply IHe.
Qed.

(** *** The walk of GetDirSize *)

Lemma Lstat_fail_no_bytes : forall n err, Lstat n = inl err -> treeBytes n = 0.
Proof.
  intros [name [e | sz] | name [e | sz] l] err H; simpl in *;
    try discriminate; reflexivity.
Qed.

Lemma walk_sizeVisitor : forall n path info s,
  Int64.in_range s -> Lstat n = inr info ->
  walk path info n sizeVisitor s = (Int64.wrap (s + treeBytes n), None).
Proof.
  induction n as [name st | name st err | name st entries IH] using Node_tree_ind;
    intros path info s Hs Hstat.
  - destruct st as [e | sz]; simpl in Hstat; [discriminate|].
    injection Hstat as <-. simpl. reflexivity.
  - destruct st as [e | sz]; simpl in Hstat; [discriminate|].
    injection Hstat as <-. simpl. f_equal.
    rewrite Z.add_0_r. symmetry. now apply wrap_id.
  - destruct st as [e | sz]; simpl in Hstat; [discriminate|].
    injection Hstat as <-. simpl.
    revert s Hs. induction entries as [|c entries IHe]; intros s Hs.
    + simpl. f_equal. rewrite Z.add_0_r. symmetry. now apply wrap_id.
    + inversion IH as [|? ? Hc Hrest]; subst.
      simpl. destruct (Lstat c) as [e | fi] eqn:Hl.
      * simpl. rewrite (IHe Hrest s Hs).
        rewrite (Lstat_fail_no_bytes _ _ Hl). reflexivity.
      * rewrite (Hc _ fi s Hs eq_refl).
        rewrite (IHe Hrest _ (wrap_in_range _)).
        rewrite wrap_add_l. f_equal. f_equal. lia.
Qed.

(** [GetDirSize] never fails, and returns the bytes the walk reaches. *)
Lemma GetDirSize_treeBytes : forall path n,
  GetDirSize path n = (Int64.wrap (treeBytes n), None).
Proof.
  intros path n. unfold GetDirSize, Walk.
  destruct (Lstat n) as [e | info] eqn:Hl.
  - simpl. rewrite (Lstat_fail_no_bytes _ _ Hl). reflexivity.
  - rewrite walk_sizeVisitor with (s := 0); auto.
    unfold Int64.in_range, Int64.min_int, Int64.max_int. lia.
Qed.

(** *** The entry computed by a task and by the loop of getChildrenInfo *)

Lemma getChildrenInfo_Dir : forall path name st entries depth,
  getChildrenInfo path (Dir name st (inr entries)) depth =
  Some (sortSlice DirInfo bySizeDesc (map (analyzeEntry path depth) entries)).
Proof.
  reflexivity.
Qed.

Lemma analyzeEntry_eq : forall path depth e,
  analyzeEntry path depth e =
  Build_DirInfo (DirEntry.Name e) (Join path (DirEntry.Name e))
    (entryBytes e) (FormatSize (entryBytes e)) (DirEntry.IsDir e)
    (if DirEntry.IsDir e && (depth >? 1)
     then getChildrenInfo (Join path (DirEntry.Name e)) e (depth - 1)
     else None).
Proof.
  intros path depth e. unfold analyzeEntry, entryBytes, DirEntry.Info.
  destruct (DirEntry.IsDir e); simpl.
  - rewrite GetDirSize_treeBytes. reflexivity.
  - reflexivity.
Qed.

Lemma getChildrenInfo_Some : forall path n depth cs,
  getChildrenInfo path n depth = Some cs ->
  exists entries,
    ReadDir n = inr entries /\
    cs = sortSlice DirInfo bySizeDesc (map (analyzeEntry path depth) entries).
Proof.
  intros path [name st | name st [err | entries]] depth cs H;
    try discriminate.
  exists entries. split; [reflexivity|].
  rewrite getChildrenInfo_Dir in H.
  injection H as <-. reflexivity.
Qed.

(** *** Order *)

Lemma bySizeDesc_strict_weak : StrictWeak bySizeDesc.
Proof.
  constructor; unfold bySizeDesc; intros; lia.
Qed.

Lemma SortedBy_sortedDesc : forall l, SortedBy bySizeDesc l -> sortedDesc l.
Proof.
  unfold SortedBy, sortedDesc.
  induction 1 as [|x l Hs IH Hx]; intros i a b Ha Hb.
  - destruct i; discriminate.
  - destruct i as [|i]; simpl in Ha, Hb.
    + injection Ha as <-. destruct l as [|y l]; [discriminate|].
      simpl in Hb. injection Hb as <-.
      inversion Hx as [|? ? Hxy _]; subst. unfold bySizeDesc in Hxy. lia.
    + eapply IH; eassumption.
Qed.

Lemma sortSlice_sortedDesc : forall l, sortedDesc (sortSlice DirInfo bySizeDesc l).
Proof.
  intros l. apply SortedBy_sortedDesc, sortSlice_sorted, bySizeDesc_strict_weak.
Qed.

(** *** A property of every level of the tree *)

Lemma getChildrenInfo_every_level (P : list DirInfo -> Prop) :
  (forall path depth entries,
     P (sortSlice DirInfo bySizeDesc (map (analyzeEntry path depth) entries))) ->
  forall n path depth cs,
    getChildrenInfo path n depth = Some cs -> EveryLevel P cs.
Proof.
  intros HP.
  induction n as [name st | name st err | name st entries IH] using Node_tree_ind;
    intros path depth cs H; try discriminate.
  rewrite getChildrenInfo_Dir in H.
  injection H as <-. constructor; [apply HP|].
  eapply Permutation_Forall; [symmetry; apply sortSlice_perm|].
  apply Forall_map. rewrite Forall_forall in IH |- *.
  intros e He cs Hcs. rewrite analyzeEntry_eq in Hcs. simpl in Hcs.
  destruct (DirEntry.IsDir e && (depth >? 1)); [|discriminate].
  eapply IH; eassumption.
Qed.

Lemma analyzeEntry_every_level (P : list DirInfo -> Prop) :
  (forall path depth entries,
     P (sortSlice DirInfo bySizeDesc (map (analyzeEntry path depth) entries))) ->
  forall path depth entries (l : list DirInfo),
    Permutation l (map (analyzeEntry path depth) entries) ->
    P l -> EveryLevel P l.
Proof.
  intros HP path depth entries l Hperm Hl. constructor; [exact Hl|].
  eapply Permutation_Forall; [symmetry; exact Hperm|].
  apply Forall_map. rewrite Forall_forall. intros e _ cs Hcs.
  rewrite analyzeEntry_eq in Hcs. simpl in Hcs.
  destruct (DirEntry.IsDir e && (depth >? 1)); [|discriminate].
  eapply getChildrenInfo_every_level; eassumption.
Qed.

Lemma stringsAgree_entries : forall path depth entries,
  stringsAgree (map (analyzeEntry path depth) entries).
Proof.
  intros. unfold stringsAgree. apply Forall_map. rewrite Forall_forall.
  intros e _. rewrite analyzeEntry_eq. reflexivity.
Qed.

Lemma stringsAgree_perm : forall l l',
  Permutation l l' -> stringsAgree l -> stringsAgree l'.
Proof.
  unfold stringsAgree. intros. eapply Permutation_Forall; eassumption.
Qed.

(** *** The order of the appends *)

Lemma insertAt_perm : forall (A : Type) k (x : A) l,
  Permutation (insertAt k x l) (x :: l).
Proof.
  intros A k x l. unfold insertAt. symmetry.
  rewrite <- (firstn_skipn k l) at 1. apply Permutation_middle.
Qed.

Lemma appendOrder_perm : forall (A : Type) (tasks : list A) picks,
  Permutation (appendOrder picks tasks) tasks.
Proof.
  induction tasks as [|t tasks IH]; intros picks; simpl.
  - constructor.
  - rewrite insertAt_perm. constructor. apply IH.
Qed.

Lemma appendOrder_map : forall (A B : Type) (f : A -> B) tasks picks,
  appendOrder picks (map f tasks) = map f (appendOrder picks tasks).
Proof.
  induction tasks as [|t tasks IH]; intros picks; simpl; [reflexivity|].
  rewrite IH. unfold insertAt.
  rewrite map_app, firstn_map. simpl. rewrite skipn_map. reflexivity.
Qed.

(** Every order of the appends is the order of some [picks]. *)
Lemma appendOrder_complete : forall (A : Type) (tasks l : list A),
  Permutation l tasks -> exists picks, appendOrder picks tasks = l.
Proof.
  induction tasks as [|t tasks IH]; intros l Hperm.
  - apply Permutation_sym, Permutation_nil in Hperm. subst.
    exists []. reflexivity.
  - assert (Hin : In t l).
    { eapply Permutation_in; [symmetry; exact Hperm|]. now left. }
    apply in_split in Hin. destruct Hin as (l1 & l2 & ->).
    apply Permutation_sym, Permutation_cons_app_inv, Permutation_sym in Hperm.
    destruct (IH _ Hperm) as [picks Hp].
    exists (List.length l1 :: picks). simpl. rewrite Hp. unfold insertAt.
    rewrite firstn_app, firstn_all, Nat.sub_diag. simpl.
    rewrite app_nil_r. rewrite skipn_app, skipn_all, Nat.sub_diag. reflexivity.
Qed.

(** *** Cutting the tree at a depth *)

Lemma pruneTo_Size : forall k d, Size (pruneTo k d) = Size d.
Proof.
  intros k [name path size sizeStr isDir children]. reflexivity.
Qed.

Lemma pruneTo_bySizeDesc : forall k a b,
  bySizeDesc (pruneTo k a) (pruneTo k b) = bySizeDesc a b.
Proof.
  intros. unfold bySizeDesc. now rewrite !pruneTo_Size.
Qed.

Lemma pruneTo_entry : forall e path k k',
  (forall p, match getChildrenInfo p e (k' - 1) with
             | Some cs => Some (map (pruneTo (k - 1)) cs)
             | None => None
             end = getChildrenInfo p e (k - 1)) ->
  k <= k' ->
  pruneTo k (analyzeEntry path k' e) = analyzeEntry path k e.
Proof.
  intros e path k k' IH Hk. rewrite !analyzeEntry_eq. simpl.
  f_equal. destruct (k >? 1) eqn:Hk1.
  - assert (Hk'1 : (k' >? 1) = true) by lia. rewrite Hk'1.
    destruct (DirEntry.IsDir e); simpl; [apply IH | reflexivity].
  - rewrite andb_false_r. reflexivity.
Qed.

Lemma pruneTo_getChildrenInfo : forall n path k k',
  k <= k' ->
  match getChildrenInfo path n k' with
  | Some cs => Some (map (pruneTo k) cs)
  | None => None
  end = getChildrenInfo path n k.
Proof.
  induction n as [name st | name st err | name st entries IH] using Node_tree_ind;
    intros path k k' Hk; try reflexivity.
  rewrite !getChildrenInfo_Dir. f_equal.
  rewrite <- (sortSlice_natural _ _ (pruneTo k) bySizeDesc bySizeDesc)
    by apply pruneTo_bySizeDesc.
  f_equal. rewrite map_map. apply map_ext_in. intros e He.
  apply pruneTo_entry; [|exact Hk].
  intros p. rewrite Forall_forall in IH. apply IH; [exact He | lia].
Qed.

Lemma pruneTo_analyzeEntry : forall e path k k',
  k <= k' -> pruneTo k (analyzeEntry path k' e) = analyzeEntry path k e.
Proof.
  intros e path k k' Hk. apply pruneTo_entry; [|exact Hk].
  intros p. apply pruneTo_getChildrenInfo. lia.
Qed.

(** *** Every reported size is the size of the node *)

Lemma Forall_Forall2_map : forall (X Y : Type) (R : X -> Y -> Prop) (f : X -> Y) l,
  Forall (fun x => R x (f x)) l -> Forall2 R l (map f l).
Proof.
  induction 1; simpl; constructor; assumption.
Qed.

Lemma analyzeEntry_Reports : forall n path depth,
  Reports n (analyzeEntry path depth n).
Proof.
  induction n as [name st | name st err | name st entries IH] using Node_tree_ind;
    intros path depth; rewrite analyzeEntry_eq; constructor; try reflexivity;
    intros cs Hcs; cbn [Children DirEntry.IsDir DirEntry.Name andb] in Hcs;
    try discriminate.
  - destruct (depth >? 1); discriminate.
  - destruct (depth >? 1); [|discriminate].
    rewrite getChildrenInfo_Dir in Hcs. injection Hcs as <-.
    exists entries, (map (analyzeEntry (Join path name) (depth - 1)) entries).
    split; [reflexivity|]. split; [symmetry; apply sortSlice_perm|].
    apply Forall_Forall2_map. rewrite Forall_forall in IH |- *.
    intros e He. apply IH. exact He.
Qed.

(** *** The shape of a successful result *)

Lemma Analyze_dir_success : forall fs picks rootPath depth r,
  DirEntry.IsDir fs = true ->
  AnalyzeDiskUsage fs picks rootPath depth = (r, None) ->
  exists entries,
    ReadDir fs = inr entries /\
    let done :=
      appendOrder picks (map (analyzeEntry (Clean rootPath) depth) entries) in
    r = Build_UsageResult (Clean rootPath) (Int64.sum_from 0 (map Size done))
          (FormatSize (Int64.sum_from 0 (map Size done)))
          (Some (sortSlice DirInfo bySizeDesc done)) "".
Proof.
  intros [name st | name st listing] picks rootPath depth r Hdir H;
    [discriminate|].
  unfold AnalyzeDiskUsage in H. simpl in H.
  destruct st as [e | sz]; [discriminate|]. simpl in H.
  destruct listing as [e | entries]; [discriminate|].
  injection H as <-. exists entries. split; reflexivity.
Qed.

Lemma Analyze_file_success : forall fs picks rootPath depth r,
  DirEntry.IsDir fs = false ->
  AnalyzeDiskUsage fs picks rootPath depth = (r, None) ->
  exists name size,
    fs = File name (inr size) /\
    r = Build_UsageResult (Clean rootPath) size (FormatSize size)
          (Some [Build_DirInfo name (Clean rootPath) size (FormatSize size)
                   false None]) "".
Proof.
  intros [name st | name st listing] picks rootPath depth r Hdir H;
    [|discriminate].
  unfold AnalyzeDiskUsage in H. simpl in H.
  destruct st as [e | sz]; [discriminate|]. simpl in H.
  injection H as <-. exists name, sz. split; reflexivity.
Qed.

Lemma items_perm_entries : forall picks path depth entries,
  Permutation
    (sortSlice DirInfo bySizeDesc
       (appendOrder picks (map (analyzeEntry path depth) entries)))
    (map (analyzeEntry path depth) entries).
Proof.
  intros. rewrite sortSlice_perm. apply appendOrder_perm.
Qed.

Lemma Size_analyzeEntry : forall path depth e,
  Size (analyzeEntry path depth e) = entryBytes e.
Proof.
  intros. rewrite analyzeEntry_eq. reflexivity.
Qed.

Lemma total_of_entries : forall picks path depth entries,
  Int64.sum_from 0
    (map Size (appendOrder picks (map (analyzeEntry path depth) entries))) =
  Int64.wrap (Zsum (map entryBytes entries)).
Proof.
  intros. fold (Int64.sum
    (map Size (appendOrder picks (map (analyzeEntry path depth) entries)))).
  rewrite sum_wrap. f_equal.
  rewrite (Zsum_perm _ (map Size (map (analyzeEntry path depth) entries)))
    by apply Permutation_map, appendOrder_perm.
  rewrite map_map. f_equal. apply map_ext. intros e. apply Size_analyzeEntry.
Qed.

Lemma inaccessible_no_bytes : forall n, inaccessible n = true -> entryBytes n = 0.
Proof.
  intros [name [e | sz] | name [e | sz] [e' | entries]] H;
    try discriminate; reflexivity.
Qed.

Lemma inaccessible_treeBytes : forall n, inaccessible n = true -> treeBytes n = 0.
Proof.
  intros [name [e | sz] | name [e | sz] [e' | entries]] H;
    try discriminate; reflexivity.
Qed.

Lemma Error_nonempty : forall e, Err.Error e <> "".
Proof.
  intros [op path err | |]; simpl; try discriminate.
  destruct op; discriminate.
Qed.

(** *** The claims about the analyzer *)

(** C1.  For a directory on which [AnalyzeDiskUsage] succeeds, [TotalSize]
    is the sum of the [Size] fields of the items, as int64 arithmetic
    computes it and, whenever the exact sum fits int64, exactly; and the
    items are one per entry of the root, under the entries' names. *)
Theorem total_is_sum_of_items : forall fs picks rootPath depth r,
  DirEntry.IsDir fs = true ->
  AnalyzeDiskUsage fs picks rootPath depth = (r, None) ->
  TotalSize r = Int64.sum (map Size (elems (Items r))) /\
  (Int64.in_range (Zsum (map Size (elems (Items r)))) ->
   TotalSize r = Zsum (map Size (elems (Items r)))) /\
  exists entries,
    ReadDir fs = inr entries /\
    Permutation (map Name (elems (Items r))) (map DirEntry.Name entries) /\
    len (Items r) = List.length entries.
Proof.
  intros fs picks rootPath depth r Hdir H.
  destruct (Analyze_dir_success _ _ _ _ _ Hdir H) as (entries & Hread & ->).
  cbn [TotalSize Items elems].
  set (done := appendOrder picks _).
  assert (Hsum : Int64.sum_from 0 (map Size done) =
                 Int64.wrap (Zsum (map Size (sortSlice DirInfo bySizeDesc done)))).
  { fold (Int64.sum (map Size done)). rewrite sum_wrap. f_equal.
    apply Zsum_perm, Permutation_map. symmetry. apply sortSlice_perm. }
  split; [|split].
  - rewrite Hsum. symmetry. apply sum_wrap.
  - intros Hfit. rewrite Hsum. now apply wrap_id.
  - exists entries. split; [exact Hread|].
    assert (Hperm : Permutation (sortSlice DirInfo bySizeDesc done)
                      (map (analyzeEntry (Clean rootPath) depth) entries))
      by apply items_perm_entries.
    split.
    + rewrite (Permutation_map Name Hperm). rewrite map_map.
      erewrite map_ext; [reflexivity|].
      intros e. rewrite analyzeEntry_eq. reflexivity.
    + unfold len. cbn [elems].
      rewrite (Permutation_length Hperm). apply length_map.
Qed.

(** C2.  Two calls on the same directory tree, with any two depths and
    under any two schedules, succeed together, return the same
    [TotalSize], and return the same entries down to the smaller of the
    two depths, each with the same size, up to the order of the items;
    and at every level the size of an entry is the size of its node,
    which for a directory is the sum of the bytes of all the files below
    it, expanded or not. *)
Theorem sizes_do_not_depend_on_depth : forall fs p1 p2 rootPath d1 d2 r1,
  AnalyzeDiskUsage fs p1 rootPath d1 = (r1, None) ->
  exists r2,
    AnalyzeDiskUsage fs p2 rootPath d2 = (r2, None) /\
    TotalSize r1 = TotalSize r2 /\
    Permutation (map (pruneTo (Z.min d1 d2)) (elems (Items r1)))
                (map (pruneTo (Z.min d1 d2)) (elems (Items r2))) /\
    (forall entries, ReadDir fs = inr entries ->
       exists l, Permutation l (elems (Items r1)) /\ Forall2 Reports entries l).
Proof.
  intros fs p1 p2 rootPath d1 d2 r1 H.
  destruct (DirEntry.IsDir fs) eqn:Hdir.
  - destruct (Analyze_dir_success _ _ _ _ _ Hdir H) as (entries & Hread & ->).
    destruct fs as [name st | name st listing]; [discriminate|].
    simpl in Hread. subst listing.
    destruct st as [e | sz]; [discriminate|].
    eexists. split; [reflexivity|]. cbn [TotalSize Items elems].
    split; [|split].
    + now rewrite !total_of_entries.
    + set (m := Z.min d1 d2).
      transitivity (map (analyzeEntry (Clean rootPath) m) entries).
      * rewrite (Permutation_map (pruneTo m) (items_perm_entries _ _ _ _)).
        rewrite map_map. erewrite map_ext; [reflexivity|].
        intros e. apply pruneTo_analyzeEntry. lia.
      * symmetry.
        rewrite (Permutation_map (pruneTo m) (items_perm_entries _ _ _ _)).
        rewrite map_map. erewrite map_ext; [reflexivity|].
        intros e. apply pruneTo_analyzeEntry. lia.
    + intros entries' Hread. injection Hread as <-.
      exists (map (analyzeEntry (Clean rootPath) d1) entries).
      split; [symmetry; apply items_perm_entries|].
      apply Forall_Forall2_map. rewrite Forall_forall. intros e _.
      apply analyzeEntry_Reports.
  - destruct (Analyze_file_success _ _ _ _ _ Hdir H) as (name & size & -> & ->).
    eexists. split; [reflexivity|]. cbn [TotalSize Items elems].
    split; [reflexivity|]. split; [reflexivity|].
    intros entries Hread. discriminate.
Qed.

(** C3.  In a successful result the items are in descending order of
    size, and so is every populated children sequence, at every level. *)
Theorem items_sorted_at_every_level : forall fs picks rootPath depth r,
  AnalyzeDiskUsage fs picks rootPath depth = (r, None) ->
  EveryLevel sortedDesc (elems (Items r)).
Proof.
  intros fs picks rootPath depth r H.
  destruct (DirEntry.IsDir fs) eqn:Hdir.
  - destruct (Analyze_dir_success _ _ _ _ _ Hdir H) as (entries & Hread & ->).
    cbn [Items elems].
    eapply analyzeEntry_every_level.
    + intros. apply sortSlice_sortedDesc.
    + apply items_perm_entries.
    + apply sortSlice_sortedDesc.
  - destruct (Analyze_file_success _ _ _ _ _ Hdir H) as (name & size & -> & ->).
    cbn [Items elems]. constructor.
    + intros [|[|i]] a b Ha Hb; discriminate.
    + constructor; [intros ? Hcs; discriminate | constructor].
Qed.

(** C4.  When the root cannot be stat'ed, or is a directory that cannot
    be listed, the call returns the error of the system and a result
    that holds the cleaned root path and the text of that error, which
    is not empty, and nothing else: no items, a zero total. *)
Theorem root_failure_is_reported_twice : forall fs picks rootPath depth err,
  Stat fs = inl err \/
  ((exists info, Stat fs = inr info) /\ DirEntry.IsDir fs = true /\
   ReadDir fs = inl err) ->
  exists r,
    AnalyzeDiskUsage fs picks rootPath depth = (r, Some err) /\
    RootPath r = Clean rootPath /\
    Error r = Err.Error err /\ Error r <> "" /\
    Items r = None /\ len (Items r) = 0%nat /\
    TotalSize r = 0 /\ TotalStr r = "".
Proof.
  intros fs picks rootPath depth err H.
  exists (Build_UsageResult (Clean rootPath) 0 "" None (Err.Error err)).
  split.
  - unfold AnalyzeDiskUsage.
    destruct H as [Hstat | ([info Hstat] & Hdir & Hread)].
    + rewrite Hstat. reflexivity.
    + rewrite Hstat.
      destruct fs as [name st | name st listing]; [discriminate|].
      destruct st as [e | sz]; [discriminate|].
      simpl in Hstat. injection Hstat as <-. simpl in Hread |- *.
      rewrite Hread. reflexivity.
  - cbn. repeat split. apply Error_nonempty.
Qed.

(** C5.  Nothing below the root fails the call: whatever the entries of a
    listed root are, the call succeeds, and no walk returns an error.  An
    entry that cannot be stat'ed or listed is reported with size zero, and
    the walk and the total count the entries around it as if it were
    absent. *)
Theorem entry_errors_are_absorbed :
  forall name size entries picks rootPath depth,
    (exists r,
       AnalyzeDiskUsage (Dir name (inr size) (inr entries)) picks rootPath depth
       = (r, None) /\ Error r = "") /\
    (forall p n, snd (GetDirSize p n) = None) /\
    (forall l1 bad l2 picks' path,
       inaccessible bad = true ->
       entries = (l1 ++ bad :: l2)%list ->
       Size (analyzeEntry path depth bad) = 0 /\
       GetDirSize path (Dir name (inr size) (inr entries))
       = GetDirSize path (Dir name (inr size) (inr (l1 ++ l2)%list)) /\
       TotalSize
         (fst (AnalyzeDiskUsage (Dir name (inr size) (inr entries)) picks
                 rootPath depth))
       = TotalSize
           (fst (AnalyzeDiskUsage (Dir name (inr size) (inr (l1 ++ l2)%list))
                   picks' rootPath depth))).
Proof.
  intros name size entries picks rootPath depth. split; [|split].
  - eexists. split; reflexivity.
  - intros p n. rewrite GetDirSize_treeBytes. reflexivity.
  - intros l1 bad l2 picks' path Hbad ->. split; [|split].
    + rewrite Size_analyzeEntry. now apply inaccessible_no_bytes.
    + rewrite !GetDirSize_treeBytes. f_equal. f_equal. simpl.
      rewrite !map_app, !Zsum_app. simpl.
      rewrite (inaccessible_treeBytes _ Hbad). lia.
    + unfold AnalyzeDiskUsage.
      cbn [Stat Lstat ReadDir negb FileInfo.IsDir TotalSize fst].
      rewrite !total_of_entries. f_equal.
      rewrite !map_app, !Zsum_app. simpl.
      rewrite (inaccessible_no_bytes _ Hbad). lia.
Qed.

(** C10, as amended.  In a successful result the strings agree with the
    numbers: [TotalStr] is [FormatSize] of [TotalSize], and at every level
    the [SizeStr] of an entry is [FormatSize] of its [Size]. *)
Theorem strings_agree_on_success : forall fs picks rootPath depth r,
  AnalyzeDiskUsage fs picks rootPath depth = (r, None) ->
  TotalStr r = FormatSize (TotalSize r) /\
  EveryLevel stringsAgree (elems (Items r)).
Proof.
  intros fs picks rootPath depth r H.
  assert (Hlevel : forall path depth entries,
    stringsAgree
      (sortSlice DirInfo bySizeDesc (map (analyzeEntry path depth) entries))).
  { intros. eapply stringsAgree_perm;
      [symmetry; apply sortSlice_perm | apply stringsAgree_entries]. }
  destruct (DirEntry.IsDir fs) eqn:Hdir.
  - destruct (Analyze_dir_success _ _ _ _ _ Hdir H) as (entries & Hread & ->).
    split; [reflexivity|]. cbn [Items elems].
    eapply analyzeEntry_every_level.
    + exact Hlevel.
    + apply items_perm_entries.
    + eapply stringsAgree_perm;
        [symmetry; apply items_perm_entries | apply stringsAgree_entries].
  - destruct (Analyze_file_success _ _ _ _ _ Hdir H) as (name & size & -> & ->).
    split; [reflexivity|]. cbn [Items elems]. constructor.
    + repeat constructor.
    + constructor; [intros ? Hcs; discriminate | constructor].
Qed.

(** *** Further properties of the analyzer *)

Lemma wrap_wrap : forall z, Int64.wrap (Int64.wrap z) = Int64.wrap z.
Proof.
  intros z. apply wrap_id, wrap_in_range.
Qed.

Lemma wrap_add_r : forall a b, Int64.wrap (a + Int64.wrap b) = Int64.wrap (a + b).
Proof.
  intros a b. rewrite Z.add_comm, wrap_add_l. f_equal. lia.
Qed.

Lemma wrap_Zsum_ext : forall (X : Type) (f g : X -> Z) l,
  (forall x, In x l -> Int64.wrap (f x) = Int64.wrap (g x)) ->
  Int64.wrap (Zsum (map f l)) = Int64.wrap (Zsum (map g l)).
Proof.
  induction l as [|x l IH]; intros H; simpl; [reflexivity|].
  rewrite <- wrap_add_l, <- wrap_add_r.
  rewrite (H x (or_introl eq_refl)), IH by (intros; apply H; now right).
  rewrite wrap_add_l, wrap_add_r. reflexivity.
Qed.

Lemma entryBytes_treeBytes : forall e,
  Int64.wrap (entryBytes e) = Int64.wrap (treeBytes e).
Proof.
  intros [name [err | sz] | name st listing]; unfold entryBytes; simpl;
    try reflexivity.
  apply wrap_wrap.
Qed.

Lemma sum_of_entries : forall path depth entries l,
  Permutation l (map (analyzeEntry path depth) entries) ->
  Int64.sum (map Size l) = Int64.wrap (Zsum (map treeBytes entries)).
Proof.
  intros path depth entries l Hperm. rewrite sum_wrap.
  rewrite (Zsum_perm _ _ (Permutation_map Size Hperm)), map_map.
  erewrite map_ext by (intros; apply Size_analyzeEntry).
  apply wrap_Zsum_ext. intros e _. apply entryBytes_treeBytes.
Qed.

Lemma analyzeEntry_SumsUp : forall n path depth,
  statsListedDirs n = true -> SumsUp (analyzeEntry path depth n).
Proof.
  induction n as [name st | name st err | name st entries IH] using Node_tree_ind;
    intros path depth Hok; constructor; intros cs Hcs;
    rewrite analyzeEntry_eq in Hcs;
    cbn [Children DirEntry.IsDir DirEntry.Name andb] in Hcs; try discriminate.
  - destruct (depth >? 1); discriminate.
  - destruct (depth >? 1); [|discriminate].
    rewrite getChildrenInfo_Dir in Hcs. injection Hcs as <-.
    destruct st as [e | sz]; [discriminate|]. simpl in Hok.
    rewrite forallb_forall in Hok. split.
    + rewrite Size_analyzeEntry. unfold entryBytes. simpl.
      symmetry. eapply sum_of_entries. apply sortSlice_perm.
    + eapply Permutation_Forall; [symmetry; apply sortSlice_perm|].
      apply Forall_map. rewrite Forall_forall in IH |- *.
      intros e He. apply IH; auto.
Qed.

(** X1.  In a tree where every directory that can be listed can also be
    stat'ed, the size of every expanded entry of a successful result is the
    int64 sum of the sizes of its children, at every level. *)
Theorem expanded_sizes_sum_up : forall name size entries picks rootPath depth r,
  statsListedDirs (Dir name (inr size) (inr entries)) = true ->
  AnalyzeDiskUsage (Dir name (inr size) (inr entries)) picks rootPath depth
  = (r, None) ->
  Forall SumsUp (elems (Items r)).
Proof.
  intros name size entries picks rootPath depth r Hok H.
  destruct (Analyze_dir_success (Dir name (inr size) (inr entries)) _ _ _ _
              eq_refl H) as (entries' & Hread & ->).
  injection Hread as <-. cbn [Items elems].
  eapply Permutation_Forall; [symmetry; apply items_perm_entries|].
  apply Forall_map. simpl in Hok. rewrite forallb_forall in Hok.
  rewrite Forall_forall. intros e He. apply analyzeEntry_SumsUp. auto.
Qed.

Lemma height_analyzeEntry : forall n path depth,
  Z.of_nat (height (analyzeEntry path depth n)) <= Z.max 0 (depth - 1).
Proof.
  induction n as [name st | name st err | name st entries IH] using Node_tree_ind;
    intros path depth; rewrite analyzeEntry_eq;
    cbn [height DirEntry.IsDir DirEntry.Name andb]; try (simpl; lia).
  - destruct (depth >? 1); simpl; lia.
  - destruct (depth >? 1) eqn:Hd; [|simpl; lia].
    rewrite getChildrenInfo_Dir.
    assert (Hmax : (list_max
                      (map height
                         (sortSlice DirInfo bySizeDesc
                            (map (analyzeEntry (Join path name) (depth - 1))
                               entries)))
                    <= Z.to_nat (depth - 2))%nat).
    { apply list_max_le, Forall_map.
      eapply Permutation_Forall; [symmetry; apply sortSlice_perm|].
      apply Forall_map. rewrite Forall_forall in IH |- *.
      intros e He. specialize (IH e He (Join path name) (depth - 1)). lia. }
    lia.
Qed.

(** X2.  A successful result never nests deeper than the depth asked for:
    below each item there are at most [depth - 1] levels of children, and
    none at all when the depth is 1 or less. *)
Theorem result_is_at_most_depth_deep : forall fs picks rootPath depth r,
  AnalyzeDiskUsage fs picks rootPath depth = (r, None) ->
  Forall (fun d => Z.of_nat (height d) <= Z.max 0 (depth - 1)) (elems (Items r)) /\
  (depth <= 1 -> Forall (fun d => Children d = None) (elems (Items r))).
Proof.
  intros fs picks rootPath depth r H.
  destruct (DirEntry.IsDir fs) eqn:Hdir.
  - destruct (Analyze_dir_success _ _ _ _ _ Hdir H) as (entries & Hread & ->).
    cbn [Items elems]. split.
    + eapply Permutation_Forall; [symmetry; apply items_perm_entries|].
      apply Forall_map, Forall_forall. intros e _. apply height_analyzeEntry.
    + intros Hd.
      eapply Permutation_Forall; [symmetry; apply items_perm_entries|].
      apply Forall_map, Forall_forall. intros e _. rewrite analyzeEntry_eq.
      cbn [Children]. replace (depth >? 1) with false by lia.
      now rewrite andb_false_r.
  - destruct (Analyze_file_success _ _ _ _ _ Hdir H) as (name & size & -> & ->).
    cbn [Items elems]. split.
    + constructor; [simpl; lia | constructor].
    + intros _. constructor; [reflexivity | constructor].
Qed.


Lemma getChildrenInfo_PathsUnder : forall n path depth cs,
  getChildrenInfo path n depth = Some cs -> PathsUnder Join path cs.
Proof.
  induction n as [name st | name st err | name st entries IH] using Node_tree_ind;
    intros path depth cs H; try discriminate.
  rewrite getChildrenInfo_Dir in H. injection H as <-. constructor.
  eapply Permutation_Forall; [symmetry; apply sortSlice_perm|].
  apply Forall_map. rewrite Forall_forall in IH |- *.
  intros e He. rewrite analyzeEntry_eq. cbn [Path Name Children].
  split; [reflexivity|]. intros cs Hcs.
  destruct (DirEntry.IsDir e && (depth >? 1)); [|discriminate].
  eapply IH; eassumption.
Qed.

(** X4.  In a successful result for a directory, the path of every item is
    the cleaned root path joined with the item's name, and the path of
    every child, at every level, is its parent's path joined with its
    name. *)
Theorem paths_follow_the_tree : forall fs picks rootPath depth r,
  DirEntry.IsDir fs = true ->
  AnalyzeDiskUsage fs picks rootPath depth = (r, None) ->
  RootPath r = Clean rootPath /\
  PathsUnder Join (RootPath r) (elems (Items r)).
Proof.
  intros fs picks rootPath depth r Hdir H.
  destruct (Analyze_dir_success _ _ _ _ _ Hdir H) as (entries & Hread & ->).
  cbn [RootPath Items elems]. split; [reflexivity|]. constructor.
  eapply Permutation_Forall; [symmetry; apply items_perm_entries|].
  apply Forall_map, Forall_forall. intros e _.
  rewrite analyzeEntry_eq. cbn [Path Name Children].
  split; [reflexivity|]. intros cs Hcs.
  destruct (DirEntry.IsDir e && (depth >? 1)); [|discriminate].
  eapply getChildrenInfo_PathsUnder; eassumption.
Qed.

Lemma sorted_perm_unique : forall l1 l2 : list DirInfo,
  SortedBy bySizeDesc l1 -> SortedBy bySizeDesc l2 ->
  Permutation l1 l2 -> NoDup (map Size l1) -> l1 = l2.
Proof.
  unfold SortedBy.
  induction l1 as [|a l1 IH]; intros l2 Hs1 Hs2 Hperm Hnd.
  - apply Permutation_nil in Hperm. now subst.
  - destruct l2 as [|b l2].
    { apply Permutation_sym, Permutation_nil in Hperm. discriminate. }
    inversion Hs1 as [|? ? Hs1' Ha]; subst.
    inversion Hs2 as [|? ? Hs2' Hb]; subst.
    inversion Hnd as [|? ? Hnotin Hnd']; subst.
    assert (Hab : a = b).
    { assert (Hina : In a (b :: l2))
        by (eapply Permutation_in; [exact Hperm | now left]).
      destruct Hina as [Heq | Hina]; [now symmetry|].
      assert (Hinb : In b (a :: l1))
        by (eapply Permutation_in; [symmetry; exact Hperm | now left]).
      destruct Hinb as [Heq | Hinb]; [exact Heq|].
      rewrite Forall_forall in Ha, Hb.
      specialize (Ha b Hinb). specialize (Hb a Hina).
      unfold bySizeDesc in Ha, Hb.
      exfalso. apply Hnotin. replace (Size a) with (Size b) by lia.
      now apply in_map. }
    subst b. f_equal. apply IH; auto.
    eapply Permutation_cons_inv. exact Hperm.
Qed.

(** X5.  The schedule of the tasks does not show in the result beyond the
    order of items of equal size: two successful calls on the same tree
    agree on the root path and the totals, their items are permutations of
    each other, and when the sizes of the items are pairwise different the
    two results are equal. *)
Theorem schedule_shows_only_in_ties : forall fs p1 p2 rootPath depth r1 r2,
  AnalyzeDiskUsage fs p1 rootPath depth = (r1, None) ->
  AnalyzeDiskUsage fs p2 rootPath depth = (r2, None) ->
  RootPath r1 = RootPath r2 /\ TotalSize r1 = TotalSize r2 /\
  TotalStr r1 = TotalStr r2 /\
  Permutation (elems (Items r1)) (elems (Items r2)) /\
  (NoDup (map Size (elems (Items r1))) -> r1 = r2).
Proof.
  intros fs p1 p2 rootPath depth r1 r2 H1 H2.
  destruct (DirEntry.IsDir fs) eqn:Hdir.
  - destruct (Analyze_dir_success _ _ _ _ _ Hdir H1) as (entries & Hread & ->).
    destruct (Analyze_dir_success _ _ _ _ _ Hdir H2) as (entries' & Hread' & ->).
    rewrite Hread in Hread'. injection Hread' as <-.
    cbn [RootPath TotalSize TotalStr Items elems].
    rewrite !total_of_entries.
    assert (Hperm : Permutation
      (sortSlice DirInfo bySizeDesc
         (appendOrder p1 (map (analyzeEntry (Clean rootPath) depth) entries)))
      (sortSlice DirInfo bySizeDesc
         (appendOrder p2 (map (analyzeEntry (Clean rootPath) depth) entries)))).
    { rewrite !items_perm_entries. reflexivity. }
    repeat split; try assumption.
    intros Hnd. f_equal. f_equal.
    apply sorted_perm_unique; auto;
      apply sortSlice_sorted, bySizeDesc_strict_weak.
  - destruct (Analyze_file_success _ _ _ _ _ Hdir H1) as (name & size & -> & ->).
    destruct (Analyze_file_success _ _ _ _ _ Hdir H2) as (name' & size' & Heq & ->).
    injection Heq as <- <-. repeat split; reflexivity.
Qed.

Lemma Analyze_outcome : forall fs picks rootPath depth r e,
  AnalyzeDiskUsage fs picks rootPath depth = (r, e) ->
  (e = None ->
   Error r = "" /\ Items r <> None /\ forall err, ~ rootFails fs err) /\
  (forall err,
     e = Some err ->
     rootFails fs err /\ Error r = Err.Error err /\ Items r = None).
Proof.
  intros fs picks rootPath depth r e H. unfold AnalyzeDiskUsage in H.
  destruct fs as [name [err | sz] | name [err | sz] listing]; simpl in H.
  - injection H as <- <-. split; [discriminate|].
    intros err' Herr. injection Herr as <-. repeat split. now left.
  - injection H as <- <-. split; [|discriminate].
    intros _. repeat split; try discriminate.
    intros err [Hs | (_ & Hd & _)]; discriminate.
  - injection H as <- <-. split; [discriminate|].
    intros err' Herr. injection Herr as <-. repeat split. now left.
  - destruct listing as [err | entries].
    + injection H as <- <-. split; [discriminate|].
      intros err' Herr. injection Herr as <-. repeat split.
      right. simpl. eauto.
    + injection H as <- <-. split; [|discriminate].
      intros _. repeat split; try discriminate.
      intros err [Hs | (_ & _ & Hr)]; discriminate.
Qed.

(** X6.  The error and the result agree: the error is nil exactly when the
    error text of the result is empty, and exactly when its items are not
    nil; and a call fails exactly when the root cannot be stat'ed or is a
    directory that cannot be listed, with the text of that error. *)
Theorem error_and_result_agree : forall fs picks rootPath depth r e,
  AnalyzeDiskUsage fs picks rootPath depth = (r, e) ->
  (e = None <-> Error r = "") /\
  (e = None <-> Items r <> None) /\
  (forall err, e = Some err <-> rootFails fs err) /\
  (forall err, e = Some err -> Error r = Err.Error err).
Proof.
  intros fs picks rootPath depth r e H.
  destruct (Analyze_outcome _ _ _ _ _ _ H) as [Hok Hfail].
  destruct e as [err|].
  - destruct (Hfail err eq_refl) as (Hroot & Htext & Hnil).
    split; [|split; [|split]].
    + split; [discriminate|]. intros He. rewrite Htext in He.
      now apply Error_nonempty in He.
    + split; [discriminate|]. intros Hi. now contradiction Hi.
    + intros err'. split.
      * intros Heq. injection Heq as <-. exact Hroot.
      * intros Hroot'. f_equal.
        destruct Hroot as [Hs | ([i Hs] & Hd & Hr)],
                 Hroot' as [Hs' | ([i' Hs'] & Hd' & Hr')]; congruence.
    + intros err' Heq. injection Heq as <-. exact Htext.
  - destruct (Hok eq_refl) as (Htext & Hitems & Hno).
    split; [|split; [|split]].
    + split; auto.
    + split; auto.
    + intros err. split; [discriminate|]. intros Hroot. now apply Hno in Hroot.
    + discriminate.
Qed.

(** X7.  The answer of [handleAnalyze]: 405 for every method but GET; for
    a GET request, 400 with the text of the error, which is not empty,
    exactly when the root fails, and otherwise 200 with a result that has
    no error text and at most four levels of children below each item,
    whatever depth the request asked for. *)
Theorem handleAnalyze_answers : forall lookup picks r,
  (Method r <> "GET" ->
   handleAnalyze lookup picks r
   = Build_Response 405 "text/plain; charset=utf-8" (Text "Method not allowed")) /\
  (Method r = "GET" ->
   (exists err,
      rootFails (lookup (requestPath (QueryPath r))) err /\
      Err.Error err <> "" /\
      handleAnalyze lookup picks r
      = Build_Response 400 "application/json" (ErrorObject (Err.Error err))) \/
   (exists result,
      (forall err, ~ rootFails (lookup (requestPath (QueryPath r))) err) /\
      handleAnalyze lookup picks r
      = Build_Response 200 "application/json" (ResultObject result) /\
      Error result = "" /\
      Forall (fun d => (height d <= 4)%nat) (elems (Items result)))).
Proof.
  intros lookup picks r. unfold handleAnalyze, analyzeCall. split.
  - intros Hm. apply String.eqb_neq in Hm. rewrite Hm. reflexivity.
  - intros Hm. apply String.eqb_eq in Hm. rewrite Hm. cbn [negb].
    set (path := requestPath (QueryPath r)).
    set (depth := requestDepth (QueryDepth r)).
    assert (Hdepth : depth <= 5).
    { subst depth. unfold requestDepth.
      destruct (negb (QueryDepth r =? "")%string); [|lia].
      destruct (Atoi (QueryDepth r)) as [d'|]; [|lia].
      destruct ((d' >? 0) && (d' <=? 5)) eqn:Hin; lia. }
    destruct (AnalyzeDiskUsage (lookup path) picks path depth) as [res e] eqn:Hrun.
    destruct (Analyze_outcome _ _ _ _ _ _ Hrun) as [Hok Hfail].
    destruct e as [err|].
    + left. exists err. destruct (Hfail err eq_refl) as (Hroot & _ & _).
      repeat split; [exact Hroot | apply Error_nonempty].
    + right. exists res. destruct (Hok eq_refl) as (Htext & _ & Hno).
      split; [exact Hno|]. split; [reflexivity|]. split; [exact Htext|].
      destruct (DirEntry.IsDir (lookup path)) eqn:Hdir.
      * destruct (Analyze_dir_success _ _ _ _ _ Hdir Hrun)
          as (entries & Hread & ->).
        cbn [Items elems].
        eapply Permutation_Forall; [symmetry; apply items_perm_entries|].
        apply Forall_map, Forall_forall. intros e _.
        pose proof (height_analyzeEntry e (Clean path) depth). lia.
      * destruct (Analyze_file_success _ _ _ _ _ Hdir Hrun)
          as (name & size & _ & ->).
        cbn [Items elems]. constructor; [simpl; lia | constructor].
Qed.

End Analyzer.

(** ** Insertion sort meets the contract of sort.Slice *)

Lemma insertLeft_perm : forall (A : Type) (less : A -> A -> bool) x prefix,
  Permutation (insertLeft less x prefix) (x :: prefix).
Proof.
  induction prefix as [|y prefix IH]; simpl.
  - reflexivity.
  - destruct (less x y).
    + rewrite IH. apply perm_swap.
    + reflexivity.
Qed.

Lemma insert_all_perm : forall (A : Type) (less : A -> A -> bool) l prefix,
  Permutation (fold_left (fun p x => insertLeft less x p) l prefix) (l ++ prefix).
Proof.
  induction l as [|x l IH]; intros prefix; simpl.
  - reflexivity.
  - rewrite IH, insertLeft_perm. symmetry. apply Permutation_middle.
Qed.

Lemma insertionSort_perm : forall (A : Type) (less : A -> A -> bool) (l : list A),
  Permutation (insertionSort A less l) l.
Proof.
  intros A less l. unfold insertionSort.
  rewrite <- Permutation_rev, insert_all_perm, app_nil_r. reflexivity.
Qed.

Section InsertionSorted.

Variable A : Type.
Variable less : A -> A -> bool.
Hypothesis less_ok : StrictWeak less.

Lemma less_asym : forall a b, less a b = true -> less b a = false.
Proof.
  intros a b Hab. destruct (less b a) eqn:Hba; [|reflexivity].
  pose proof (sw_trans less less_ok _ _ _ Hab Hba) as Haa.
  rewrite (sw_irrefl less less_ok) in Haa. discriminate.
Qed.

(** The sorted part is kept nearest neighbour first, that is backwards. *)
Lemma insertLeft_backwards : forall x prefix,
  StronglySorted (fun a b => less a b = false) prefix ->
  StronglySorted (fun a b => less a b = false) (insertLeft less x prefix).
Proof.
  intros x prefix H.
  induction H as [|y prefix Hs IH Hy]; simpl.
  - repeat constructor.
  - destruct (less x y) eqn:Hxy.
    + constructor; [exact IH|].
      eapply Permutation_Forall; [symmetry; apply insertLeft_perm|].
      constructor; [now apply less_asym | exact Hy].
    + constructor; [constructor; assumption|].
      constructor; [exact Hxy|].
      eapply Forall_impl; [|exact Hy]. intros z Hyz.
      exact (sw_incomp less less_ok _ _ _ Hxy Hyz).
Qed.

Lemma insert_all_backwards : forall l prefix,
  StronglySorted (fun a b => less a b = false) prefix ->
  StronglySorted (fun a b => less a b = false)
    (fold_left (fun p x => insertLeft less x p) l prefix).
Proof.
  induction l as [|x l IH]; intros prefix H; simpl.
  - exact H.
  - apply IH, insertLeft_backwards, H.
Qed.

Lemma SortedBy_snoc : forall r y,
  SortedBy less r -> Forall (fun z => less y z = false) r ->
  SortedBy less (r ++ [y]).
Proof.
  unfold SortedBy. intros r y H Hy.
  induction H as [|z r Hr IH Hz]; simpl.
  - repeat constructor.
  - inversion Hy as [|? ? Hyz Hy']; subst.
    constructor; [now apply IH|].
    apply Forall_app. split; [exact Hz|]. repeat constructor. exact Hyz.
Qed.

Lemma backwards_rev : forall l,
  StronglySorted (fun a b => less a b = false) l -> SortedBy less (rev l).
Proof.
  intros l H. induction H as [|y l Hs IH Hy]; simpl.
  - constructor.
  - apply SortedBy_snoc; [exact IH|]. now apply Forall_rev.
Qed.

Lemma insertionSort_sorted_by : forall l, SortedBy less (insertionSort A less l).
Proof.
  intros l. unfold insertionSort. apply backwards_rev, insert_all_backwards.
  constructor.
Qed.

End InsertionSorted.

Lemma insertionSort_sorted :
  forall (A : Type) (less : A -> A -> bool) (l : list A),
    StrictWeak less -> SortedBy less (insertionSort A less l).
Proof.
  intros A less l H. now apply insertionSort_sorted_by.
Qed.

Lemma insertLeft_map :
  forall (A B : Type) (f : A -> B) (lessA : A -> A -> bool) (lessB : B -> B -> bool),
    (forall a a', lessB (f a) (f a') = lessA a a') ->
    forall x prefix,
      insertLeft lessB (f x) (map f prefix) = map f (insertLeft lessA x prefix).
Proof.
  intros A B f lessA lessB Hf x.
  induction prefix as [|y prefix IH]; simpl; [reflexivity|].
  rewrite Hf. destruct (lessA x y); simpl; [now rewrite IH | reflexivity].
Qed.

Lemma insertionSort_natural :
  forall (A B : Type) (f : A -> B) (lessA : A -> A -> bool)
         (lessB : B -> B -> bool) (l : list A),
    (forall a a', lessB (f a) (f a') = lessA a a') ->
    insertionSort B lessB (map f l) = map f (insertionSort A lessA l).
Proof.
  intros A B f lessA lessB l Hf. unfold insertionSort.
  rewrite map_rev. f_equal.
  change (@nil B) with (map f (@nil A)). generalize (@nil A) as prefix.
  induction l as [|x l IH]; intros prefix; simpl; [reflexivity|].
  rewrite (insertLeft_map _ _ f lessA lessB Hf). apply IH.
Qed.

(** ** The tasks: the invariant of every execution *)

Section FanoutFacts.

Import Fanout.

Variables E A : Type.
Variable work : E -> A.
Variable sizeOf : A -> Z.

Lemma countPc_app : forall f (ts ts' : list (E * pc)),
  countPc f (ts ++ ts') = (countPc f ts + countPc f ts')%nat.
Proof.
  intros. unfold countPc. now rewrite filter_app, length_app.
Qed.

Lemma countPc_setPc : forall f i e p p' (ts : list (E * pc)),
  nth_error ts i = Some (e, p) ->
  (countPc f (setPc i p' ts) + Nat.b2n (f p) =
   countPc f ts + Nat.b2n (f p'))%nat.
Proof.
  unfold countPc. intros f i e p p' ts. revert i.
  induction ts as [|[e0 p0] ts IH]; intros [|i] H; simpl in H; try discriminate.
  - injection H as -> ->. simpl. destruct (f p), (f p'); simpl; lia.
  - simpl. specialize (IH i H). destruct (f p0); simpl; lia.
Qed.

Lemma countPc_le : forall f g (ts : list (E * pc)),
  (forall p, f p = true -> g p = true) -> (countPc f ts <= countPc g ts)%nat.
Proof.
  unfold countPc. intros f g ts Hfg.
  induction ts as [|[e p] ts IH]; simpl; [lia|].
  destruct (f p) eqn:Hf.
  - rewrite (Hfg _ Hf). simpl. lia.
  - destruct (g p); simpl; lia.
Qed.

Lemma countPc_zero : forall f (ts : list (E * pc)),
  countPc f ts = O -> Forall (fun t => f (snd t) = false) ts.
Proof.
  unfold countPc. intros f ts.
  induction ts as [|[e p] ts IH]; simpl; intros H; constructor.
  - simpl. destruct (f p); [discriminate | reflexivity].
  - apply IH. destruct (f p); [discriminate | exact H].
Qed.

Lemma map_fst_setPc : forall i p (ts : list (E * pc)),
  map fst (setPc i p ts) = map fst ts.
Proof.
  intros i p ts. revert i.
  induction ts as [|[e0 p0] ts IH]; intros [|i]; simpl; try reflexivity.
  now rewrite IH.
Qed.

Lemma appended_setPc_same : forall i e p p' (ts : list (E * pc)),
  nth_error ts i = Some (e, p) -> hasAppended p' = hasAppended p ->
  appended (setPc i p' ts) = appended ts.
Proof.
  unfold appended. intros i e p p' ts. revert i.
  induction ts as [|[e0 p0] ts IH]; intros [|i] H Hp; simpl in H;
    try discriminate.
  - injection H as -> ->. simpl. rewrite Hp.
    destruct (hasAppended p); reflexivity.
  - simpl. destruct (hasAppended p0); simpl; now rewrite (IH i H Hp).
Qed.

Lemma appended_setPc_new : forall i e p p' (ts : list (E * pc)),
  nth_error ts i = Some (e, p) ->
  hasAppended p = false -> hasAppended p' = true ->
  Permutation (appended (setPc i p' ts)) (e :: appended ts).
Proof.
  unfold appended. intros i e p p' ts. revert i.
  induction ts as [|[e0 p0] ts IH]; intros [|i] H Hp Hp'; simpl in H;
    try discriminate.
  - injection H as -> ->. simpl. rewrite Hp, Hp'. reflexivity.
  - simpl. destruct (hasAppended p0); simpl.
    + rewrite (IH i H Hp Hp'). apply perm_swap.
    + apply (IH i H Hp Hp').
Qed.

Lemma appended_all_exited : forall ts : list (E * pc),
  Forall (fun t => negb (isExited (snd t)) = false) ts ->
  appended ts = map fst ts.
Proof.
  unfold appended. induction 1 as [|[e p] ts Hp _ IH]; simpl; [reflexivity|].
  simpl in Hp. destruct p; try discriminate. simpl. now rewrite IH.
Qed.

Lemma sum_snoc : forall l x, Int64.sum (l ++ [x]) = Int64.add (Int64.sum l) x.
Proof.
  intros l x. unfold Int64.sum, Int64.sum_from.
  now rewrite fold_left_app.
Qed.

Lemma init_invariant : forall entries, invariant work sizeOf entries (init entries).
Proof.
  intros entries.
  constructor; simpl; try reflexivity; try discriminate; try apply Nat.le_0_l.
Qed.

Ltac count_facts i p' Hnth :=
  pose proof (countPc_setPc holdsSlot i _ _ p' _ Hnth);
  pose proof (countPc_setPc (fun p => negb (isExited p)) i _ _ p' _ Hnth);
  pose proof (countPc_setPc inCritical i _ _ p' _ Hnth).

Ltac task_step Hinv i p' Hnth :=
  destruct Hinv as [Hent Hsem Hcap Hwg Hmu Hwait Hitems Htotal];
  count_facts i p' Hnth;
  constructor; cbn [pending waited tasks sem wg mu items totalSize] in *;
  [ rewrite map_fst_setPc; exact Hent
  | simpl in *; lia
  | simpl in *; unfold semaphoreCap in *; lia
  | simpl in *; lia
  | simpl in *; destruct (mu _); simpl in *; lia
  | try (intros Hw; destruct (Hwait Hw); split; [assumption | lia])
  | try (erewrite appended_setPc_same by (eassumption || reflexivity);
         exact Hitems)
  | try exact Htotal ].

Lemma fire_invariant : forall entries a s s',
  invariant work sizeOf entries s ->
  fire work sizeOf a s = Some s' ->
  invariant work sizeOf entries s'.
Proof.
  intros entries a s s' Hinv Hfire. destruct a as [| |i]; simpl in Hfire.
  - destruct (pending s) as [|e rest] eqn:Hpend; [discriminate|].
    injection Hfire as <-.
    destruct Hinv as [Hent Hsem Hcap Hwg Hmu Hwait Hitems Htotal].
    constructor; cbn [pending waited tasks sem wg mu items totalSize].
    + rewrite map_app, <- app_assoc. simpl. now rewrite <- Hpend.
    + rewrite countPc_app. simpl. cbn. lia.
    + exact Hcap.
    + rewrite countPc_app. cbn. lia.
    + rewrite countPc_app. cbn. lia.
    + intros Hw. destruct (Hwait Hw) as [Hnil _]. congruence.
    + unfold appended in *. rewrite filter_app. simpl.
      now rewrite app_nil_r.
    + exact Htotal.
  - destruct (pending s) eqn:Hpend; [|discriminate].
    destruct (wg s) eqn:Hwg0; [|discriminate].
    destruct (waited s) eqn:Hw0; [discriminate|].
    injection Hfire as <-.
    destruct Hinv as [Hent Hsem Hcap Hwg Hmu Hwait Hitems Htotal].
    constructor; cbn [pending waited tasks sem wg mu items totalSize];
      try assumption.
    + now rewrite <- Hpend.
    + now rewrite <- Hwg0.
    + intros _. split; reflexivity.
  - destruct (nth_error (tasks s) i) as [[e p]|] eqn:Hnth; [|discriminate].
    destruct p.
    + destruct (sem s <? semaphoreCap)%nat eqn:Hlt; [|discriminate].
      apply Nat.ltb_lt in Hlt. injection Hfire as <-.
      task_step Hinv i AtWork Hnth.
    + injection Hfire as <-. task_step Hinv i AtLock Hnth.
    + destruct (mu s) eqn:Hmu0; [discriminate|]. injection Hfire as <-.
      task_step Hinv i AtAppend Hnth.
    + injection Hfire as <-. task_step Hinv i AtUnlock Hnth.
      * rewrite (appended_setPc_new i e AtAppend AtUnlock _ Hnth eq_refl eq_refl).
        simpl. rewrite <- Hitems. symmetry. apply Permutation_cons_append.
      * rewrite map_app. simpl. rewrite sum_snoc. now rewrite Htotal.
    + injection Hfire as <-. task_step Hinv i AtRelease Hnth.
    + destruct (sem s) as [|k] eqn:Hsem0; [discriminate|].
      injection Hfire as <-. task_step Hinv i AtDone Hnth.
    + destruct (wg s) as [|k] eqn:Hwg0; [discriminate|].
      injection Hfire as <-. task_step Hinv i Exited Hnth.
    + discriminate.
Qed.

End FanoutFacts.

Section FanoutClaims.

Import Fanout.

Variables E A : Type.
Variable work : E -> A.
Variable sizeOf : A -> Z.

Lemma reachable_invariant : forall entries (s : state E A),
  reachable work sizeOf entries s -> invariant work sizeOf entries s.
Proof.
  intros entries s [acts Hrun]. revert s Hrun.
  generalize (init_invariant E A work sizeOf entries).
  generalize (@init E A entries) as s0.
  induction acts as [|a acts IH]; intros s0 H0 s Hrun; simpl in Hrun.
  - injection Hrun as <-. exact H0.
  - destruct (fire work sizeOf a s0) as [s1|] eqn:Hfire; [|discriminate].
    eapply IH; [|exact Hrun]. eapply fire_invariant; eassumption.
Qed.

(** When [wg.Wait] has returned, [items] holds the entry of every task,
    in the order of some [picks], and [totalSize] their sum: the value
    [AnalyzeDiskUsage] goes on with. *)
Lemma tasks_yield_appendOrder : forall entries (s : state E A),
  reachable work sizeOf entries s -> waited s = true ->
  (exists picks, items s = appendOrder picks (map work entries)) /\
  totalSize s = Int64.sum_from 0 (map sizeOf (items s)).
Proof.
  intros entries s Hreach Hw.
  destruct (reachable_invariant _ _ Hreach)
    as [Hent Hsem Hcap Hwg Hmu Hwait Hitems Htotal].
  destruct (Hwait Hw) as [Hpend Hzero]. split; [|exact Htotal].
  destruct (appendOrder_complete A (map work entries) (items s)) as [picks Hp].
  - rewrite Hitems, appended_all_exited.
    + rewrite Hpend, app_nil_r in Hent. now rewrite Hent.
    + apply (countPc_zero E (fun p => negb (isExited p))). congruence.
  - exists picks. now rewrite Hp.
Qed.

(** *** An execution that returns

    The tasks can always be run to the end: one after the other is one
    way. *)

Lemma nth_error_last : forall (X : Type) (l : list X) x,
  nth_error (l ++ [x]) (List.length l) = Some x.
Proof.
  intros X l x. rewrite nth_error_app2 by lia. now rewrite Nat.sub_diag.
Qed.

Lemma setPc_last : forall (ts : list (E * pc)) e p q,
  setPc (List.length ts) q (ts ++ [(e, p)]) = (ts ++ [(e, q)])%list.
Proof.
  induction ts as [|[e0 p0] ts IH]; intros e p q; simpl; [reflexivity|].
  now rewrite IH.
Qed.

Lemma run_app : forall a1 a2 (s : state E A),
  run work sizeOf (a1 ++ a2) s =
  match run work sizeOf a1 s with
  | Some s' => run work sizeOf a2 s'
  | None => None
  end.
Proof.
  induction a1 as [|a a1 IH]; intros a2 s; simpl; [reflexivity|].
  destruct (fire work sizeOf a s); [apply IH | reflexivity].
Qed.

Lemma one_task_runs_to_its_end : forall e es ts its tot,
  run work sizeOf (Spawn :: repeat (Run (List.length ts)) 7)
    (Build_state E A (e :: es) false ts 0 0 false its tot)
  = Some (Build_state E A es false (ts ++ [(e, Exited)]) 0 0 false
            (its ++ [work e]) (Int64.add tot (sizeOf (work e)))).
Proof.
  intros e es ts its tot.
  cbn [run fire repeat pending waited tasks sem wg mu items totalSize].
  do 7 (rewrite nth_error_last;
        cbn [run fire pending waited tasks sem wg mu items totalSize
               Nat.ltb Nat.leb semaphoreCap];
        rewrite setPc_last).
  reflexivity.
Qed.

Lemma oneByOne_runs : forall es ts its tot,
  run work sizeOf (oneByOne (List.length ts) (List.length es))
    (Build_state E A es false ts 0 0 false its tot)
  = Some (Build_state E A [] false (ts ++ map (fun e => (e, Exited)) es) 0 0
            false (its ++ map work es)
            (Int64.sum_from tot (map sizeOf (map work es)))).
Proof.
  induction es as [|e es IH]; intros ts its tot.
  - simpl. now rewrite !app_nil_r.
  - cbn [List.length oneByOne].
    rewrite app_comm_cons, run_app, one_task_runs_to_its_end.
    replace (S (List.length ts)) with (List.length (ts ++ [(e, Exited)]))
      by (rewrite length_app; simpl; lia).
    rewrite IH. simpl. now rewrite <- !app_assoc.
Qed.

Lemma every_call_can_return : forall entries,
  exists s : state E A,
    reachable work sizeOf entries s /\ waited s = true /\
    items s = map work entries.
Proof.
  intros entries.
  exists (Build_state E A [] true (map (fun e => (e, Exited)) entries) 0 0 false
            (map work entries)
            (Int64.sum_from 0 (map sizeOf (map work entries)))).
  split; [|split; reflexivity].
  exists (oneByOne 0 (List.length entries) ++ [Wait])%list.
  rewrite run_app. unfold init.
  pose proof (oneByOne_runs entries [] [] 0) as Hrun.
  cbn [List.length app] in Hrun. rewrite Hrun. reflexivity.
Qed.

(** C9.  In every state of an execution of the tasks over the entries of
    the root: at most ten size computations are in flight, because a task
    computes only between its send on the semaphore channel and its
    receive, and the channel holds at most ten elements; the tasks
    launched are one per entry, in the order of the entries; and once
    [wg.Wait] has returned, a task has been launched for every entry and
    every task has run to its end. *)
Theorem at_most_ten_walks_in_flight : forall entries (s : state E A),
  reachable work sizeOf entries s ->
  (working s <= 10)%nat /\
  (countPc holdsSlot (tasks s) = sem s /\ sem s <= semaphoreCap)%nat /\
  (map fst (tasks s) ++ pending s)%list = entries /\
  (waited s = true ->
   map fst (tasks s) = entries /\
   Forall (fun t => snd t = Exited) (tasks s)).
Proof.
  intros entries s Hreach.
  destruct (reachable_invariant _ _ Hreach)
    as [Hent Hsem Hcap Hwg Hmu Hwait Hitems Htotal].
  split; [|split; [|split]].
  - unfold working.
    pose proof (countPc_le E isWorking holdsSlot (tasks s)) as Hle.
    unfold semaphoreCap in Hcap.
    assert (forall p, isWorking p = true -> holdsSlot p = true)
      by (intros []; simpl; congruence).
    specialize (Hle H). lia.
  - split; [symmetry; exact Hsem | exact Hcap].
  - exact Hent.
  - intros Hw. destruct (Hwait Hw) as [Hpend Hzero]. split.
    + rewrite Hpend, app_nil_r in Hent. exact Hent.
    + rewrite Hzero in Hwg. symmetry in Hwg. apply countPc_zero in Hwg.
      eapply Forall_impl; [|exact Hwg].
      intros [e p] Hp. simpl in *. destruct p; try discriminate. reflexivity.
Qed.

End FanoutClaims.

(** The result [AnalyzeDiskUsage] builds once [wg.Wait] has returned is the
    result of the model of the analyzer under some [picks]. *)
Lemma AnalyzeDiskUsage_from_tasks :
  forall (Clean : string -> string) (Join : string -> string -> string)
         (sortSlice : forall A : Type, (A -> A -> bool) -> list A -> list A)
         name size entries rootPath depth
         (s : Fanout.state Node DirInfo),
    Fanout.reachable (analyzeEntry Join sortSlice (Clean rootPath) depth) Size
      entries s ->
    Fanout.waited s = true ->
    exists picks,
      AnalyzeDiskUsage Clean Join sortSlice (Dir name (inr size) (inr entries))
        picks rootPath depth
      = (Build_UsageResult (Clean rootPath) (Fanout.totalSize s)
           (FormatSize (Fanout.totalSize s))
           (Some (sortSlice DirInfo bySizeDesc (Fanout.items s))) "",
         None).
Proof.
  intros Clean Join sortSlice name size entries rootPath depth s Hreach Hw.
  destruct (tasks_yield_appendOrder _ _ _ _ _ _ Hreach Hw) as [[picks Hp] Ht].
  exists picks. unfold AnalyzeDiskUsage.
  cbn [Stat Lstat ReadDir negb FileInfo.IsDir].
  rewrite <- Hp, <- Ht. reflexivity.
Qed.

(** ** The size formatter *)

Lemma intToString_loop_fuel : forall fuel extra n digits,
  0 <= n < 2 ^ Z.of_nat fuel ->
  intToString_loop (fuel + extra) n digits = intToString_loop fuel n digits.
Proof.
  induction fuel as [|fuel IH]; intros extra n digits Hn.
  - simpl in Hn. assert (n = 0) by lia. subst n.
    destruct extra; reflexivity.
  - simpl. destruct (n >? 0) eqn:Hpos; [|reflexivity].
    apply IH. split.
    + apply Z.quot_pos; lia.
    + rewrite Nat2Z.inj_succ, Z.pow_succ_r in Hn by lia.
      rewrite Z.quot_div_nonneg by lia.
      apply Z.div_lt_upper_bound; lia.
Qed.

(** The rounds [intToString] allows its loop are enough for every [n]. *)
Lemma intToString_fuel_enough : forall n extra digits,
  0 < n ->
  intToString_loop (bit_length n + extra) n digits =
  intToString_loop (bit_length n) n digits.
Proof.
  intros n extra digits Hn. apply intToString_loop_fuel.
  unfold bit_length. split; [lia|].
  rewrite Nat2Z.inj_add, Z2Nat.id by apply Z.log2_nonneg.
  change (Z.of_nat 1) with 1. rewrite Z.add_1_r.
  apply Z.log2_spec. exact Hn.
Qed.

(** A whole number of kilobytes is printed as its last digit. *)
Lemma format_whole_KB : forall k,
  1 <= k < 1024 ->
  FormatSize (k * KB) = string_of_rune (zero_char + k mod 10) ++ " KB".
Proof.
  assert (H : forallb
                (fun k => String.eqb (FormatSize (k * KB))
                            (string_of_rune (zero_char + k mod 10) ++ " KB"))
                (map Z.of_nat (seq 1 1023)) = true) by (vm_compute; reflexivity).
  intros k Hk. rewrite forallb_forall in H.
  apply String.eqb_eq, H, in_map_iff.
  exists (Z.to_nat k). split; [lia|]. apply in_seq. lia.
Qed.

(** C6, as amended.  [FormatSize] on the examples of the specification:
    zero bytes, one kilobyte and one gigabyte print as whole numbers, and
    1536 bytes print with the two digits of their hundredths, after a dot. *)
Theorem format_examples :
  FormatSize 0 = "0 B" /\
  FormatSize 1024 = "1 KB" /\
  FormatSize 1536 = "1.50 KB" /\
  FormatSize 1073741824 = "1 GB".
Proof.
  repeat split; vm_compute; reflexivity.
Qed.

(** C6, the example that fails: 1536 bytes do not print as "1.5 KB". *)
Lemma format_1536_keeps_two_digits :
  FormatSize 1536 = "1.50 KB" /\ FormatSize 1536 <> "1.5 KB".
Proof.
  split; vm_compute; [reflexivity | discriminate].
Qed.

(** C7, where the code departs from it: a whole number of two or more
    digits loses all digits but the last. *)
Theorem format_whole_numbers_keep_last_digit_only :
  FormatSize (10 * 1024) = "0 KB" /\
  FormatSize (100 * 1048576) = "0 MB" /\
  FormatSize 1023 = "3 B".
Proof.
  repeat split; vm_compute; reflexivity.
Qed.

(** ** The depth of the analyzer call *)

Lemma Atoi_empty : Atoi "" = None.
Proof.
  reflexivity.
Qed.

(** C8, as amended.  A GET request always reaches the analyzer, with a
    depth in [1, 5]: the depth of the request when it parses as an integer
    of that range, and 1 in every other case, whether the parameter is
    absent, does not parse, or lies below or above the range. *)
Theorem depth_is_defaulted_into_range : forall r,
  (Method r = "GET" -> exists path depth, analyzeCall r = Some (path, depth)) /\
  (forall path depth,
     analyzeCall r = Some (path, depth) ->
     1 <= depth <= 5 /\
     (QueryDepth r = "" -> depth = 1) /\
     (forall d, Atoi (QueryDepth r) = Some d -> 1 <= d <= 5 -> depth = d) /\
     (forall d, Atoi (QueryDepth r) = Some d -> d < 1 \/ 5 < d -> depth = 1) /\
     (Atoi (QueryDepth r) = None -> depth = 1)).
Proof.
  intros r. unfold analyzeCall. split.
  - intros Hm. apply String.eqb_eq in Hm. rewrite Hm. simpl. eauto.
  - intros path depth H.
    destruct (Method r =? "GET")%string; [|discriminate]. simpl in H.
    injection H as _ <-. unfold requestDepth.
    destruct (QueryDepth r =? "")%string eqn:Hempty; simpl.
    + apply String.eqb_eq in Hempty. rewrite Hempty, Atoi_empty.
      repeat split; try lia; intros; discriminate.
    + apply String.eqb_neq in Hempty.
      destruct (Atoi (QueryDepth r)) as [d|].
      * destruct ((d >? 0) && (d <=? 5)) eqn:Hin.
        -- repeat split; try lia; try contradiction.
           ++ intros d' Hd' _. congruence.
           ++ intros d' Hd' Hout. injection Hd' as <-. lia.
           ++ discriminate.
        -- repeat split; try lia; try contradiction.
           intros d' Hd' Hd. injection Hd' as <-. lia.
      * repeat split; try lia; try contradiction; intros; discriminate.
Qed.

Lemma depth_is_defaulted_into_range_witness :
  analyzeCall (Build_Request "GET" "/home" "3") = Some ("/home", 3) /\
  1 <= 3 <= 5.
Proof.
  split; [reflexivity|].
  exact (proj1 (proj2 (depth_is_defaulted_into_range
                         (Build_Request "GET" "/home" "3"))
                  "/home" 3 eq_refl)).
Defined.

(** C8, the request that is not clamped: a depth of 7 becomes 1, and the
    nearest value of the range is 5. *)
Lemma depth_seven_is_not_clamped :
  Atoi "7" = Some 7 /\
  analyzeCall (Build_Request "GET" "/" "7") = Some ("/", 1) /\
  clampDepth 7 = 5 /\
  requestDepth "7" <> clampDepth 7.
Proof.
  repeat split; vm_compute; discriminate.
Qed.

(** ** The claims at work on a directory tree *)

Local Notation "'analyzeSample'" :=
  (AnalyzeDiskUsage (fun p => p) joinSlash insertionSort sample).

Lemma total_is_sum_of_items_witness :
  DirEntry.IsDir sample = true /\
  analyzeSample [2; 0]%nat "/data" 2
    = (fst (analyzeSample [2; 0]%nat "/data" 2), None) /\
  TotalSize (fst (analyzeSample [2; 0]%nat "/data" 2)) = 3012800 /\
  TotalSize (fst (analyzeSample [2; 0]%nat "/data" 2))
    = Int64.sum (map Size (elems (Items (fst (analyzeSample [2; 0]%nat "/data" 2))))).
Proof.
  split; [reflexivity|]. split; [vm_compute; reflexivity|].
  split; [vm_compute; reflexivity|].
  exact (proj1 (total_is_sum_of_items (fun p => p) joinSlash insertionSort
                  insertionSort_perm sample [2; 0]%nat "/data" 2 _
                  eq_refl eq_refl)).
Defined.

Lemma sizes_do_not_depend_on_depth_witness :
  analyzeSample [2; 0]%nat "/data" 1
    = (fst (analyzeSample [2; 0]%nat "/data" 1), None) /\
  exists r2,
    analyzeSample [1; 1; 1]%nat "/data" 3 = (r2, None) /\
    TotalSize (fst (analyzeSample [2; 0]%nat "/data" 1)) = TotalSize r2.
Proof.
  split; [vm_compute; reflexivity|].
  destruct (sizes_do_not_depend_on_depth (fun p => p) joinSlash insertionSort
              insertionSort_perm insertionSort_natural sample
              [2; 0]%nat [1; 1; 1]%nat "/data" 1 3 _ eq_refl)
    as (r2 & Hrun & Htotal & _).
  exists r2. split; assumption.
Defined.

Lemma items_sorted_at_every_level_witness :
  analyzeSample [2; 0]%nat "/data" 3
    = (fst (analyzeSample [2; 0]%nat "/data" 3), None) /\
  EveryLevel sortedDesc (elems (Items (fst (analyzeSample [2; 0]%nat "/data" 3)))).
Proof.
  split; [vm_compute; reflexivity|].
  exact (items_sorted_at_every_level (fun p => p) joinSlash insertionSort
           insertionSort_perm insertionSort_sorted sample [2; 0]%nat "/data" 3 _
           eq_refl).
Defined.

Lemma root_failure_is_reported_twice_witness :
  Stat missing
    = inl (PathError "stat" "/definitely/does/not/exist" "no such file or directory") /\
  exists r,
    AnalyzeDiskUsage (fun p => p) joinSlash insertionSort missing []
      "/definitely/does/not/exist" 1
    = (r, Some (PathError "stat" "/definitely/does/not/exist"
                  "no such file or directory")) /\
    Error r = "stat /definitely/does/not/exist: no such file or directory" /\
    Items r = None.
Proof.
  split; [reflexivity|].
  destruct (root_failure_is_reported_twice (fun p => p) joinSlash insertionSort
              missing [] "/definitely/does/not/exist" 1 _ (or_introl eq_refl))
    as (r & Hrun & _ & Herr & _ & Hitems & _).
  exists r. repeat split; assumption.
Defined.

Lemma entry_errors_are_absorbed_witness :
  inaccessible
    (Dir "locked" (inr 4096)
       (inl (PathError "open" "/data/locked" "permission denied"))) = true /\
  GetDirSize joinSlash "/data"
    (Dir "data" (inr 4096)
       (inr [ File "a.txt" (inr 1536);
              Dir "locked" (inr 4096)
                (inl (PathError "open" "/data/locked" "permission denied"));
              File "b.txt" (inr 1024) ]))
  = GetDirSize joinSlash "/data"
      (Dir "data" (inr 4096)
         (inr [ File "a.txt" (inr 1536); File "b.txt" (inr 1024) ])).
Proof.
  split; [reflexivity|].
  exact (proj1 (proj2
    (proj2 (proj2
       (entry_errors_are_absorbed (fun p => p) joinSlash insertionSort
          "data" 4096
          [ File "a.txt" (inr 1536);
            Dir "locked" (inr 4096)
              (inl (PathError "open" "/data/locked" "permission denied"));
            File "b.txt" (inr 1024) ]
          [] "/data" 1))
       [File "a.txt" (inr 1536)]
       (Dir "locked" (inr 4096)
          (inl (PathError "open" "/data/locked" "permission denied")))
       [File "b.txt" (inr 1024)] [] "/data" eq_refl eq_refl))).
Defined.

Lemma strings_agree_on_success_witness :
  analyzeSample [2; 0]%nat "/data" 3
    = (fst (analyzeSample [2; 0]%nat "/data" 3), None) /\
  TotalStr (fst (analyzeSample [2; 0]%nat "/data" 3)) = "2.87 MB" /\
  TotalStr (fst (analyzeSample [2; 0]%nat "/data" 3))
    = FormatSize (TotalSize (fst (analyzeSample [2; 0]%nat "/data" 3))).
Proof.
  split; [vm_compute; reflexivity|]. split; [vm_compute; reflexivity|].
  exact (proj1 (strings_agree_on_success (fun p => p) joinSlash insertionSort
                  insertionSort_perm sample [2; 0]%nat "/data" 3 _ eq_refl)).
Defined.

(** C10, the result that breaks it: when the root is missing the result
    holds a zero total and an empty total string, not the string of zero. *)
Lemma error_result_strings_disagree :
  snd (AnalyzeDiskUsage (fun p => p) joinSlash insertionSort missing []
         "/definitely/does/not/exist" 1) <> None /\
  TotalSize (fst (AnalyzeDiskUsage (fun p => p) joinSlash insertionSort missing []
                    "/definitely/does/not/exist" 1)) = 0 /\
  TotalStr (fst (AnalyzeDiskUsage (fun p => p) joinSlash insertionSort missing []
                   "/definitely/does/not/exist" 1)) = "" /\
  FormatSize 0 = "0 B" /\
  TotalStr (fst (AnalyzeDiskUsage (fun p => p) joinSlash insertionSort missing []
                   "/definitely/does/not/exist" 1))
  <> FormatSize
       (TotalSize (fst (AnalyzeDiskUsage (fun p => p) joinSlash insertionSort
                          missing [] "/definitely/does/not/exist" 1))).
Proof.
  repeat split; vm_compute; discriminate.
Qed.

(** Two entries, each task run to its end, then [wg.Wait]. *)
Lemma at_most_ten_walks_in_flight_witness :
  Fanout.reachable (fun e : nat => e) Z.of_nat [7; 5]%nat
    (Fanout.Build_state nat nat [] true
       [(7, Fanout.Exited); (5, Fanout.Exited)]%nat 0 0 false [5; 7]%nat 12) /\
  (Fanout.working
     (Fanout.Build_state nat nat [] true
        [(7, Fanout.Exited); (5, Fanout.Exited)]%nat 0 0 false [5; 7]%nat 12)
   <= 10)%nat.
Proof.
  assert (Hrun : Fanout.reachable (fun e : nat => e) Z.of_nat [7; 5]%nat
            (Fanout.Build_state nat nat [] true
               [(7, Fanout.Exited); (5, Fanout.Exited)]%nat 0 0 false
               [5; 7]%nat 12)).
  { exists ([Fanout.Spawn; Fanout.Spawn]
            ++ repeat (Fanout.Run 1) 7 ++ repeat (Fanout.Run 0) 7
            ++ [Fanout.Wait])%list.
    reflexivity. }
  split; [exact Hrun|].
  exact (proj1 (at_most_ten_walks_in_flight nat nat (fun e : nat => e) Z.of_nat
                  _ _ Hrun)).
Defined.

(** Eleven entries: once ten tasks hold a slot, ten computations are in
    flight and the eleventh task cannot pass its send on the channel. *)
Example eleventh_task_waits :
  exists s,
    Fanout.run (fun e : nat => e) Z.of_nat
      (repeat Fanout.Spawn 11 ++ map Fanout.Run (seq 0 10))%list
      (Fanout.init (seq 0 11)) = Some s /\
    Fanout.working s = 10%nat /\
    Fanout.fire (fun e : nat => e) Z.of_nat (Fanout.Run 10) s = None.
Proof.
  eexists. split; [vm_compute; reflexivity|]. split; reflexivity.
Qed.

(** ** The tasks: exclusion, progress and the length of an execution *)

Section FanoutMore.

Import Fanout.

Variables E A : Type.
Variable work : E -> A.
Variable sizeOf : A -> Z.

Lemma countPc_witness : forall f (ts : list (E * pc)),
  (0 < countPc f ts)%nat ->
  exists i e p, nth_error ts i = Some (e, p) /\ f p = true.
Proof.
  unfold countPc. intros f.
  induction ts as [|[e p] ts IH]; simpl; intros H; [lia|].
  destruct (f p) eqn:Hf.
  - exists O, e, p. split; [reflexivity | exact Hf].
  - destruct (IH H) as (i & e' & p' & Hnth & Hp).
    exists (S i), e', p'. split; assumption.
Qed.

Lemma countPc_member : forall f i e p (ts : list (E * pc)),
  nth_error ts i = Some (e, p) -> f p = true -> (0 < countPc f ts)%nat.
Proof.
  unfold countPc. intros f i e p ts. revert i.
  induction ts as [|[e0 p0] ts IH]; intros [|i] H Hf; simpl in H;
    try discriminate.
  - injection H as -> ->. simpl. rewrite Hf. simpl. lia.
  - simpl. specialize (IH i H Hf). destruct (f p0); simpl; lia.
Qed.

Lemma remaining_setPc : forall i e p p' (ts : list (E * pc)),
  nth_error ts i = Some (e, p) ->
  (list_sum (map (fun t => remaining (snd t)) (setPc i p' ts)) + remaining p
   = list_sum (map (fun t => remaining (snd t)) ts) + remaining p')%nat.
Proof.
  intros i e p p' ts. revert i.
  induction ts as [|[e0 p0] ts IH]; intros [|i] H; simpl in H; try discriminate.
  - injection H as -> ->. simpl. lia.
  - simpl. specialize (IH i H). lia.
Qed.

Lemma stepsLeft_fire : forall a (s s' : state E A),
  fire work sizeOf a s = Some s' -> stepsLeft s = S (stepsLeft s').
Proof.
  intros a s s' Hfire. unfold stepsLeft.
  destruct a as [| |i]; simpl in Hfire.
  - destruct (pending s) as [|e rest]; [discriminate|].
    injection Hfire as <-. cbn [pending waited tasks].
    rewrite map_app, list_sum_app. simpl. lia.
  - destruct (pending s); [|discriminate].
    destruct (wg s); [|discriminate].
    destruct (waited s); [discriminate|].
    injection Hfire as <-. cbn [pending waited tasks]. simpl. lia.
  - destruct (nth_error (tasks s) i) as [[e p]|] eqn:Hnth; [|discriminate].
    destruct p;
      repeat match type of Hfire with
             | (if ?c then _ else _) = _ => destruct c; try discriminate
             | match ?n with O => _ | S _ => _ end = _ =>
                 destruct n; try discriminate
             end;
      try discriminate; injection Hfire as <-; cbn [pending waited tasks];
      match goal with
      | |- context [setPc i ?q _] =>
          pose proof (remaining_setPc i e _ q _ Hnth) as Hrem
      end;
      simpl in Hrem; lia.
Qed.

Lemma stepsLeft_run : forall acts (s s' : state E A),
  run work sizeOf acts s = Some s' ->
  stepsLeft s = (List.length acts + stepsLeft s')%nat.
Proof.
  induction acts as [|a acts IH]; intros s s' Hrun; simpl in Hrun.
  - injection Hrun as <-. reflexivity.
  - destruct (fire work sizeOf a s) as [s1|] eqn:Hfire; [|discriminate].
    rewrite (stepsLeft_fire _ _ _ Hfire), (IH _ _ Hrun). simpl. lia.
Qed.

Lemma all_exited_no_steps : forall ts : list (E * pc),
  Forall (fun t => negb (isExited (snd t)) = false) ts ->
  list_sum (map (fun t => remaining (snd t)) ts) = O.
Proof.
  induction 1 as [|[e p] ts Hp _ IH]; simpl; [reflexivity|].
  simpl in Hp. destruct p; try discriminate. simpl. exact IH.
Qed.

(** X8.  An execution over [n] entries takes at most [8 n + 1] steps,
    under every schedule, and exactly that many when [wg.Wait] has
    returned: no task runs a statement twice and none is skipped. *)
Theorem executions_are_bounded : forall entries acts (s : state E A),
  run work sizeOf acts (init entries) = Some s ->
  (List.length acts <= 8 * List.length entries + 1)%nat /\
  (waited s = true -> List.length acts = 8 * List.length entries + 1)%nat.
Proof.
  intros entries acts s Hrun.
  pose proof (stepsLeft_run _ _ _ Hrun) as Hsteps.
  unfold stepsLeft at 1 in Hsteps. simpl in Hsteps.
  split; [lia|]. intros Hw.
  assert (Hreach : reachable work sizeOf entries s) by (exists acts; exact Hrun).
  destruct (reachable_invariant _ _ _ _ _ _ Hreach)
    as [Hent Hsem Hcap Hwg Hmu Hwait Hitems Htotal].
  destruct (Hwait Hw) as [Hpend Hzero].
  assert (Hleft : stepsLeft s = O).
  { unfold stepsLeft. rewrite Hpend, Hw, all_exited_no_steps; [reflexivity|].
    apply (countPc_zero E (fun p => negb (isExited p))). congruence. }
  lia.
Qed.

(** X9.  The mutex does its work: in every state of an execution at most
    one task is between [mu.Lock] and [mu.Unlock], the mutex is held
    exactly when one is, and [totalSize] is the int64 sum of the sizes of
    the items appended so far. *)
Theorem appends_exclude_each_other : forall entries (s : state E A),
  reachable work sizeOf entries s ->
  (countPc inCritical (tasks s) <= 1)%nat /\
  (mu s = true <-> countPc inCritical (tasks s) = 1%nat) /\
  totalSize s = Int64.sum (map sizeOf (items s)).
Proof.
  intros entries s Hreach.
  destruct (reachable_invariant _ _ _ _ _ _ Hreach)
    as [Hent Hsem Hcap Hwg Hmu Hwait Hitems Htotal].
  rewrite Hmu. destruct (mu s); simpl; repeat split; auto; discriminate.
Qed.

Lemma critical_task_moves : forall entries (s : state E A),
  invariant work sizeOf entries s ->
  (0 < countPc inCritical (tasks s))%nat ->
  exists a s', fire work sizeOf a s = Some s'.
Proof.
  intros entries s Hinv Hpos.
  destruct (countPc_witness _ _ Hpos) as (i & e & p & Hnth & Hp).
  exists (Run i). simpl. rewrite Hnth.
  destruct p; try discriminate; eauto.
Qed.

Lemma locking_task_moves : forall entries (s : state E A) i e,
  invariant work sizeOf entries s ->
  nth_error (tasks s) i = Some (e, AtLock) ->
  exists a s', fire work sizeOf a s = Some s'.
Proof.
  intros entries s i e Hinv Hnth.
  destruct (mu s) eqn:Hmu.
  - apply (critical_task_moves entries); [exact Hinv|].
    rewrite (inv_mu _ _ _ _ _ _ Hinv), Hmu. simpl. lia.
  - exists (Run i). simpl. rewrite Hnth, Hmu. eauto.
Qed.

Lemma holding_task_moves : forall entries (s : state E A),
  invariant work sizeOf entries s ->
  (0 < countPc holdsSlot (tasks s))%nat ->
  exists a s', fire work sizeOf a s = Some s'.
Proof.
  intros entries s Hinv Hpos.
  destruct (countPc_witness _ _ Hpos) as (i & e & p & Hnth & Hp).
  destruct p; try discriminate.
  - exists (Run i). simpl. rewrite Hnth. eauto.
  - eapply locking_task_moves; eassumption.
  - exists (Run i). simpl. rewrite Hnth. eauto.
  - exists (Run i). simpl. rewrite Hnth. eauto.
  - exists (Run i). simpl. rewrite Hnth.
    destruct (sem s) eqn:Hsem; [|eauto].
    rewrite (inv_sem _ _ _ _ _ _ Hinv) in Hsem. lia.
Qed.

(** X10.  The tasks cannot block each other for good: in every state of
    an execution in which [wg.Wait] has not returned yet, the loop, a task
    or [wg.Wait] can take a step. *)
Theorem some_step_is_always_possible : forall entries (s : state E A),
  reachable work sizeOf entries s ->
  waited s = false ->
  exists a s', fire work sizeOf a s = Some s'.
Proof.
  intros entries s Hreach Hw.
  pose proof (reachable_invariant _ _ _ _ _ _ Hreach) as Hinv.
  destruct (pending s) as [|e rest] eqn:Hpend.
  - destruct (countPc (fun p => negb (isExited p)) (tasks s)) as [|k] eqn:Hlive.
    + exists Wait. simpl.
      rewrite Hpend, (inv_wg _ _ _ _ _ _ Hinv), Hlive, Hw. eauto.
    + assert (Hpos : (0 < countPc (fun p => negb (isExited p)) (tasks s))%nat)
        by lia.
      destruct (countPc_witness _ _ Hpos) as (i & e & p & Hnth & Hp).
      destruct p; try discriminate.
      * destruct (sem s <? semaphoreCap)%nat eqn:Hlt.
        -- exists (Run i). simpl. rewrite Hnth, Hlt. eauto.
        -- apply Nat.ltb_ge in Hlt. apply (holding_task_moves entries); auto.
           rewrite <- (inv_sem _ _ _ _ _ _ Hinv). unfold semaphoreCap in Hlt. lia.
      * exists (Run i). simpl. rewrite Hnth. eauto.
      * eapply locking_task_moves; eassumption.
      * exists (Run i). simpl. rewrite Hnth. eauto.
      * exists (Run i). simpl. rewrite Hnth. eauto.
      * apply (holding_task_moves entries); auto.
        eapply countPc_member; [exact Hnth | reflexivity].
      * exists (Run i). simpl. rewrite Hnth.
        destruct (wg s) eqn:Hwg; [|eauto].
        rewrite (inv_wg _ _ _ _ _ _ Hinv) in Hwg. lia.
  - exists Spawn. simpl. rewrite Hpend. eauto.
Qed.

(** X11.  What the caller finds when [wg.Wait] has returned does not
    depend on the schedule beyond the order of the items: [items] is a
    permutation of the entries computed, one per entry of the root, and
    [totalSize] is the int64 sum of their sizes. *)
Theorem tasks_compute_every_entry : forall entries (s : state E A),
  reachable work sizeOf entries s ->
  waited s = true ->
  Permutation (items s) (map work entries) /\
  totalSize s = Int64.wrap (Zsum (map sizeOf (map work entries))).
Proof.
  intros entries s Hreach Hw.
  destruct (reachable_invariant _ _ _ _ _ _ Hreach)
    as [Hent Hsem Hcap Hwg Hmu Hwait Hitems Htotal].
  destruct (Hwait Hw) as [Hpend Hzero].
  assert (Hperm : Permutation (items s) (map work entries)).
  { rewrite Hitems, appended_all_exited.
    - rewrite Hpend, app_nil_r in Hent. now rewrite Hent.
    - apply (countPc_zero E (fun p => negb (isExited p))). congruence. }
  split; [exact Hperm|].
  rewrite Htotal, sum_wrap. f_equal.
  apply Zsum_perm, Permutation_map, Hperm.
Qed.

End FanoutMore.

(** ** The operating system information *)

Section HostFacts.

Variable GOOS : string.
Variable Getwd : error + string.
Variable StatPath : string -> error + FileInfo.t.
Variable TrimSpace : string -> string.
Variable Clean : string -> string.

Lemma drives_loop : forall letters drives,
  fold_left
    (fun drives letter =>
       let drive := driveName letter in
       match StatPath drive with
       | inr _ => (drives ++ [drive])%list
       | inl _ => drives
       end) letters drives
  = (drives
     ++ map driveName
          (filter
             (fun letter =>
                match StatPath (driveName letter) with
                | inr _ => true
                | inl _ => false
                end) letters))%list.
Proof.
  induction letters as [|l letters IH]; intros drives; simpl.
  - now rewrite app_nil_r.
  - rewrite IH. destruct (StatPath _); simpl; [reflexivity|].
    now rewrite <- app_assoc.
Qed.

Lemma StronglySorted_filter : forall (X : Type) (R : X -> X -> Prop) f l,
  StronglySorted R l -> StronglySorted R (filter f l).
Proof.
  induction 1 as [|x l Hs IH Hx]; simpl; [constructor|].
  destruct (f x); [|exact IH]. constructor; [exact IH|].
  rewrite Forall_forall in Hx |- *. intros y Hy.
  apply filter_In in Hy. now apply Hx.
Qed.

Lemma driveLetters_sorted : StronglySorted Z.lt driveLetters.
Proof.
  apply Sorted_StronglySorted; [exact Z.lt_trans|].
  unfold driveLetters. simpl. repeat constructor.
Qed.

Lemma driveLetters_range : forall l, In l driveLetters <-> 65 <= l <= 90.
Proof.
  intros l. unfold driveLetters. rewrite in_map_iff. split.
  - intros (k & <- & Hk). apply in_seq in Hk. lia.
  - intros Hl. exists (Z.to_nat l). split; [lia|]. apply in_seq. lia.
Qed.

(** X12.  [GetWindowsDrives] never returns nil; it returns the drive
    names [A:\] to [Z:\] that [os.Stat] accepts, and only those, each
    once, in the order of their letters. *)
Theorem GetWindowsDrives_lists_the_drives :
  exists letters,
    GetWindowsDrives StatPath = Some (map driveName letters) /\
    StronglySorted Z.lt letters /\
    forall l,
      In l letters <->
      65 <= l <= 90 /\ exists info, StatPath (driveName l) = inr info.
Proof.
  eexists. split; [|split].
  - unfold GetWindowsDrives. rewrite drives_loop. reflexivity.
  - apply StronglySorted_filter, driveLetters_sorted.
  - intros l. rewrite filter_In, driveLetters_range.
    destruct (StatPath (driveName l)) as [e | info].
    + split; [intros [_ H]; discriminate | intros [_ [info H]]; discriminate].
    + split; [intros [H _]; eauto | intros [H _]; auto].
Qed.

Lemma drive_prefix : forall wd,
  hasColonSecond wd = true ->
  exists c rest, wd = String c (String ":" rest) /\ substring 0 2 wd = String c ":".
Proof.
  intros [|c [|c' rest]]; unfold hasColonSecond; simpl; try discriminate.
  intros H. apply Ascii.eqb_eq in H. subst c'.
  exists c, rest. split; [reflexivity|]. destruct rest; reflexivity.
Qed.

(** X13.  [GetOSInfo] on a host that is not Windows gives the default
    path ["/"] and no drives.  On Windows the drives are those of
    [GetWindowsDrives] and the default path is always a drive root of
    three bytes, a letter, a colon and a backslash: the first two bytes of
    the working directory when its second byte is a colon, and [C:\]
    when it is not or the working directory is unknown. *)
Theorem GetOSInfo_default_path :
  OS (GetOSInfo GOOS Getwd StatPath) = GOOS /\
  (IsWindows (GetOSInfo GOOS Getwd StatPath) = true <-> GOOS = "windows") /\
  (GOOS <> "windows" ->
   DefaultPath (GetOSInfo GOOS Getwd StatPath) = "/" /\
   Drives (GetOSInfo GOOS Getwd StatPath) = None) /\
  (GOOS = "windows" ->
   Drives (GetOSInfo GOOS Getwd StatPath) = GetWindowsDrives StatPath /\
   (exists c,
      DefaultPath (GetOSInfo GOOS Getwd StatPath) = String c (":" ++ backslash)) /\
   (forall wd, Getwd = inr wd -> hasColonSecond wd = true ->
      DefaultPath (GetOSInfo GOOS Getwd StatPath) = substring 0 2 wd ++ backslash) /\
   ((forall wd, Getwd = inr wd -> hasColonSecond wd = false) ->
      DefaultPath (GetOSInfo GOOS Getwd StatPath) = "C:" ++ backslash)).
Proof.
  unfold GetOSInfo. cbn [OS IsWindows DefaultPath Drives].
  split; [reflexivity|]. split; [apply String.eqb_eq|]. split.
  - intros Hos. apply String.eqb_neq in Hos. rewrite Hos. split; reflexivity.
  - intros Hos. apply String.eqb_eq in Hos. rewrite Hos.
    split; [reflexivity|]. split; [|split].
    + destruct Getwd as [e | wd]; [exists "C"%char; reflexivity|].
      destruct (hasColonSecond wd) eqn:Hwd; [|exists "C"%char; reflexivity].
      destruct (drive_prefix _ Hwd) as (c & rest & _ & ->).
      exists c. reflexivity.
    + intros wd -> Hwd. now rewrite Hwd.
    + intros Hno. destruct Getwd as [e | wd]; [reflexivity|].
      now rewrite (Hno wd eq_refl).
Qed.


Lemma hasColonSecond_drive : forall c rest,
  hasColonSecond (String c (String ":" rest)) = true.
Proof.
  intros c rest. reflexivity.
Qed.

(** X14.  On a host that is not Windows, [NormalizePath] gives ["/"] for a
    path that trims to nothing, and otherwise cleans an absolute path:
    the trimmed path itself when it begins with a slash, the trimmed path
    after a slash when it does not. *)
Theorem NormalizePath_unix_is_absolute : forall path,
  GOOS <> "windows" ->
  (TrimSpace path = "" -> NormalizePath GOOS Getwd TrimSpace Clean path = "/") /\
  (TrimSpace path <> "" ->
   exists q,
     NormalizePath GOOS Getwd TrimSpace Clean path = Clean q /\
     HasPrefix q "/" = true /\
     (HasPrefix (TrimSpace path) "/" = true -> q = TrimSpace path) /\
     (HasPrefix (TrimSpace path) "/" = false -> q = "/" ++ TrimSpace path)).
Proof.
  intros path Hos. apply String.eqb_neq in Hos.
  unfold NormalizePath. rewrite Hos. split.
  - intros ->. reflexivity.
  - intros Hne. apply String.eqb_neq in Hne. rewrite Hne.
    destruct (HasPrefix (TrimSpace path) "/") eqn:Hp; simpl.
    + exists (TrimSpace path). repeat split; auto; discriminate.
    + exists ("/" ++ TrimSpace path). repeat split; auto; try discriminate.
      unfold HasPrefix. simpl. now destruct (TrimSpace path).
Qed.


(** X16.  A path that trims to nothing is normalized to the default path
    of [GetOSInfo], on every host. *)
Theorem blank_path_is_the_default_path : forall path,
  TrimSpace path = "" ->
  NormalizePath GOOS Getwd TrimSpace Clean path
  = DefaultPath (GetOSInfo GOOS Getwd StatPath).
Proof.
  intros path Hblank. unfold NormalizePath, GetOSInfo. rewrite Hblank.
  cbn [DefaultPath]. destruct (GOOS =? "windows")%string; reflexivity.
Qed.

End HostFacts.

(** ** The digits of intToString *)

Lemma digit_of_byte : forall d,
  0 <= d < 10 -> digit_of (byte_of (zero_char + d)) = Some d.
Proof.
  intros d Hd.
  assert (H : d = 0 \/ d = 1 \/ d = 2 \/ d = 3 \/ d = 4 \/ d = 5 \/ d = 6 \/
              d = 7 \/ d = 8 \/ d = 9) by lia.
  repeat (destruct H as [-> | H]; [reflexivity|]). subst d. reflexivity.
Qed.

Lemma digit_is_no_sign : forall c d,
  digit_of c = Some d ->
  Ascii.eqb c "-" = false /\ Ascii.eqb c "+" = false.
Proof.
  intros c d H. split; apply Ascii.eqb_neq; intros ->; discriminate.
Qed.

(** The loop writes the [k] decimal digits of [n] in front of [rest]. *)
Lemma intToString_loop_digits : forall fuel n rest,
  0 <= n < 2 ^ Z.of_nat fuel ->
  exists k : nat,
    String.length (intToString_loop fuel n rest) = (k + String.length rest)%nat /\
    n < 10 ^ Z.of_nat k /\
    (0 < n -> 10 ^ (Z.of_nat k - 1) <= n) /\
    forall acc,
      parse_digits (intToString_loop fuel n rest) acc
      = parse_digits rest (acc * 10 ^ Z.of_nat k + n).
Proof.
  induction fuel as [|fuel IH]; intros n rest Hn.
  - simpl in Hn. assert (n = 0) by lia. subst n. exists O. simpl.
    repeat split; try lia. intros acc. f_equal. lia.
  - cbn [intToString_loop]. destruct (n >? 0) eqn:Hpos.
    + assert (Hq : 0 <= Z.quot n 10 < 2 ^ Z.of_nat fuel).
      { rewrite Z.quot_div_nonneg by lia. split; [apply Z.div_pos; lia|].
        rewrite Nat2Z.inj_succ, Z.pow_succ_r in Hn by lia.
        apply Z.div_lt_upper_bound; lia. }
      destruct (IH (Z.quot n 10)
                  (String (byte_of (zero_char + Z.rem n 10)) rest) Hq)
        as (k & Hlen & Hup & Hlow & Hparse).
      rewrite Z.quot_div_nonneg in * by lia.
      rewrite Z.rem_mod_nonneg in * by lia.
      pose proof (Z.div_mod n 10 ltac:(lia)) as Hdm.
      pose proof (Z.mod_pos_bound n 10 ltac:(lia)) as Hmod.
      exists (S k). rewrite Nat2Z.inj_succ, Z.pow_succ_r by lia.
      split; [|split; [|split]].
      * rewrite Hlen. simpl. lia.
      * lia.
      * intros _. replace (Z.succ (Z.of_nat k) - 1) with (Z.of_nat k) by lia.
        destruct (Z.eq_dec (n / 10) 0) as [Hz | Hnz].
        -- assert (k = O).
           { rewrite Hz in Hlen. destruct fuel; simpl in Hlen; lia. }
           subst k. simpl. lia.
        -- assert (0 < n / 10) by lia.
           specialize (Hlow H).
           destruct k as [|k]; [simpl in Hup; lia|].
           rewrite Nat2Z.inj_succ in Hlow |- *.
           replace (Z.succ (Z.of_nat k) - 1) with (Z.of_nat k) in Hlow by lia.
           rewrite Z.pow_succ_r by lia. lia.
      * intros acc. rewrite Hparse. cbn [parse_digits].
        rewrite digit_of_byte by lia. f_equal. lia.
    + assert (n = 0) by lia. subst n. exists O. simpl.
      repeat split; try lia. intros acc. f_equal. lia.
Qed.

Lemma bit_length_enough : forall n,
  0 < n -> 0 <= n < 2 ^ Z.of_nat (bit_length n).
Proof.
  intros n Hn. unfold bit_length. split; [lia|].
  rewrite Nat2Z.inj_add, Z2Nat.id by apply Z.log2_nonneg.
  change (Z.of_nat 1) with 1. rewrite Z.add_1_r.
  apply Z.log2_spec. exact Hn.
Qed.

Lemma Atoi_digits : forall s n,
  0 < n <= Int64.max_int ->
  parse_digits s 0 = Some n ->
  Atoi s = Some n /\ Atoi ("-" ++ s) = Some (- n).
Proof.
  intros s n Hn Hparse.
  destruct s as [|c s'].
  - simpl in Hparse. injection Hparse as <-. lia.
  - assert (Hc : exists d, digit_of c = Some d).
    { simpl in Hparse. destruct (digit_of c) as [d|]; [eauto | discriminate]. }
    destruct Hc as [d Hd]. destruct (digit_is_no_sign _ _ Hd) as [Hm Hp].
    unfold Int64.max_int in Hn. split.
    + unfold Atoi. rewrite Hm, Hp. cbn [orb]. rewrite Hparse.
      unfold Int64.min_int, Int64.max_int.
      replace ((- 2 ^ 63 <=? n) && (n <=? 2 ^ 63 - 1)) with true by lia.
      reflexivity.
    + cbn [append Atoi]. change (Ascii.eqb "-" "-") with true. cbn [orb].
      rewrite Hparse. unfold Int64.min_int, Int64.max_int.
      replace ((- 2 ^ 63 <=? - n) && (- n <=? 2 ^ 63 - 1)) with true by lia.
      reflexivity.
Qed.

Lemma intToString_positive : forall n,
  0 < n ->
  exists k : nat,
    intToString n = intToString_loop (bit_length n) n "" /\
    String.length (intToString n) = k /\
    10 ^ (Z.of_nat k - 1) <= n < 10 ^ Z.of_nat k /\
    parse_digits (intToString n) 0 = Some n.
Proof.
  intros n Hn. unfold intToString.
  replace (n =? 0) with false by lia. replace (n <? 0) with false by lia.
  destruct (intToString_loop_digits (bit_length n) n "" (bit_length_enough n Hn))
    as (k & Hlen & Hup & Hlow & Hparse).
  exists k. split; [reflexivity|]. split; [rewrite Hlen; simpl; lia|].
  split; [split; auto|]. rewrite Hparse. simpl. reflexivity.
Qed.

(** X17.  [strconv.Atoi] reads back what [intToString] writes, for every
    int64 but the smallest, which [intToString] writes as a lone minus
    sign that [Atoi] refuses. *)
Theorem Atoi_reads_intToString : forall n,
  Int64.min_int <= n <= Int64.max_int ->
  (n <> Int64.min_int -> Atoi (intToString n) = Some n) /\
  (n = Int64.min_int -> intToString n = "-" /\ Atoi (intToString n) = None).
Proof.
  intros n Hn. split.
  - intros Hmin. destruct (Z.compare_spec n 0) as [-> | Hneg | Hpos].
    + reflexivity.
    + assert (Hm : 0 < - n <= Int64.max_int)
        by (unfold Int64.min_int, Int64.max_int in *; lia).
      assert (Hw : Int64.neg n = - n).
      { unfold Int64.neg, Int64.wrap. unfold Int64.max_int in Hm.
        rewrite Z.mod_small; lia. }
      destruct (intToString_positive (- n) (proj1 Hm)) as (k & Heq & _ & _ & Hp).
      unfold intToString at 1.
      replace (n =? 0) with false by lia. replace (n <? 0) with true by lia.
      rewrite Hw, <- Heq.
      destruct (Atoi_digits _ _ Hm Hp) as [_ Hneg'].
      rewrite Hneg'. f_equal. lia.
    + destruct (intToString_positive n Hpos) as (k & _ & _ & _ & Hp).
      apply (Atoi_digits _ _ (conj Hpos (proj2 Hn)) Hp).
  - intros ->. split; reflexivity.
Qed.

Lemma Atoi_reads_intToString_witness :
  Int64.min_int <= -1536 <= Int64.max_int /\ -1536 <> Int64.min_int /\
  intToString (-1536) = "-1536" /\ Atoi (intToString (-1536)) = Some (-1536).
Proof.
  assert (H : Int64.min_int <= -1536 <= Int64.max_int)
    by (unfold Int64.min_int, Int64.max_int; lia).
  assert (H' : -1536 <> Int64.min_int) by (unfold Int64.min_int; lia).
  split; [exact H|]. split; [exact H'|]. split; [reflexivity|].
  exact (proj1 (Atoi_reads_intToString (-1536) H) H').
Defined.

(** X18.  [padZero] writes a number of less than a hundred in exactly two
    digits and every other number as [intToString] does, never in fewer
    than two, and [strconv.Atoi] reads the number back. *)
Theorem padZero_keeps_the_number : forall n,
  0 <= n <= Int64.max_int ->
  Atoi (padZero n) = Some n /\
  (2 <= String.length (padZero n))%nat /\
  (n < 100 -> String.length (padZero n) = 2%nat) /\
  (10 <= n -> padZero n = intToString n).
Proof.
  intros n Hn. unfold padZero.
  destruct (Z.eq_dec n 0) as [-> | Hnz]; [repeat split; try lia; reflexivity|].
  assert (Hpos : 0 < n) by lia.
  destruct (intToString_positive n Hpos) as (k & _ & Hlen & [Hlow Hup] & Hp).
  assert (Hk1 : k = 1%nat <-> n < 10).
  { split.
    - intros ->. simpl in Hup. lia.
    - intros Hlt. destruct k as [|[|k]]; [simpl in Hup; lia | reflexivity|].
      rewrite !Nat2Z.inj_succ in Hlow.
      replace (Z.succ (Z.succ (Z.of_nat k)) - 1) with (Z.succ (Z.of_nat k))
        in Hlow by lia.
      rewrite Z.pow_succ_r in Hlow by lia.
      assert (0 < 10 ^ Z.of_nat k) by (apply Z.pow_pos_nonneg; lia). lia. }
  assert (Hk2 : n < 100 -> (k <= 2)%nat).
  { intros Hlt. destruct k as [|[|[|k]]]; try lia.
    rewrite !Nat2Z.inj_succ in Hlow.
    replace (Z.succ (Z.succ (Z.succ (Z.of_nat k))) - 1)
      with (Z.succ (Z.succ (Z.of_nat k))) in Hlow by lia.
    rewrite !Z.pow_succ_r in Hlow by lia.
    assert (0 < 10 ^ Z.of_nat k) by (apply Z.pow_pos_nonneg; lia). lia. }
  assert (Hk0 : k <> O) by (intros ->; simpl in Hup; lia).
  rewrite Hlen. destruct (k =? 1)%nat eqn:Hone.
  - apply Nat.eqb_eq in Hone.
    assert (Hlt : n < 10) by now apply Hk1.
    rewrite Hone in Hlen.
    split; [|split; [|split]].
    + destruct (intToString n) as [|c s] eqn:Hs; [discriminate|].
      simpl in Hp. destruct (digit_of c) as [d|] eqn:Hd; [|discriminate].
      cbn [append Atoi]. change (Ascii.eqb "0" "-") with false.
      change (Ascii.eqb "0" "+") with false. cbn [orb parse_digits].
      change (digit_of "0") with (Some 0). rewrite Hd. simpl.
      simpl in Hp. rewrite Hp.
      unfold Int64.min_int, Int64.max_int in *.
      replace ((- 2 ^ 63 <=? n) && (n <=? 2 ^ 63 - 1)) with true by lia.
      reflexivity.
    + simpl. rewrite Hlen. lia.
    + intros _. simpl. rewrite Hlen. reflexivity.
    + lia.
  - apply Nat.eqb_neq in Hone.
    split; [|split; [|split]].
    + apply (Atoi_digits _ _ (conj Hpos (proj2 Hn)) Hp).
    + rewrite Hlen. lia.
    + intros Hlt. rewrite Hlen. specialize (Hk2 Hlt). lia.
    + reflexivity.
Qed.

Lemma padZero_keeps_the_number_witness :
  0 <= 5 <= Int64.max_int /\ padZero 5 = "05" /\ Atoi (padZero 5) = Some 5.
Proof.
  assert (H : 0 <= 5 <= Int64.max_int) by (unfold Int64.max_int; lia).
  split; [exact H|]. split; [reflexivity|].
  exact (proj1 (padZero_keeps_the_number 5 H)).
Defined.

(** ** The float arithmetic of the formatter

    The sizes the formatter meets are integers below 2 ^ 53, which float64
    holds exactly, and the units are powers of two: the division, the
    truncations, the subtraction and the multiplication by 100 are followed
    through [SpecFloat] on the mantissa and the exponent. *)

Lemma digits2_log2 : forall p, Zpos (digits2_pos p) = Z.log2 (Zpos p) + 1.
Proof.
  induction p as [p IH | p IH |]; cbn [digits2_pos].
  - rewrite Pos2Z.inj_succ, IH, Pos2Z.inj_xI, Z.log2_succ_double by lia. lia.
  - rewrite Pos2Z.inj_succ, IH, Pos2Z.inj_xO, Z.log2_double by lia. lia.
  - reflexivity.
Qed.

Lemma iter_pos_nat : forall (X : Type) (f : X -> X) p x,
  iter_pos f p x = Nat.iter (Pos.to_nat p) f x.
Proof.
  intros X f. induction p as [p IH | p IH |]; intros x; cbn [iter_pos].
  - rewrite !IH, Pos2Nat.inj_xI. 
    replace (S (2 * Pos.to_nat p)) with (Pos.to_nat p + (Pos.to_nat p + 1))%nat by lia.
    rewrite !Nat.iter_add. simpl. reflexivity.
  - rewrite !IH, Pos2Nat.inj_xO.
    replace (2 * Pos.to_nat p)%nat with (Pos.to_nat p + Pos.to_nat p)%nat by lia.
    rewrite Nat.iter_add. reflexivity.
  - reflexivity.
Qed.

Lemma shr_exact : forall (t : nat) (m : Z) (q : positive),
  m = Zpos q * 2 ^ Z.of_nat t ->
  Nat.iter t shr_1 (Build_shr_record m false false)
  = Build_shr_record (Zpos q) false false.
Proof.
  induction t as [|t IH]; intros m q Hm.
  - change (Z.of_nat 0) with 0 in Hm. rewrite Z.pow_0_r, Z.mul_1_r in Hm.
    subst m. reflexivity.
  - rewrite Nat.iter_succ_r.
    rewrite Nat2Z.inj_succ, Z.pow_succ_r in Hm by lia.
    assert (Hpos : 0 < Zpos q * 2 ^ Z.of_nat t).
    { apply Z.mul_pos_pos; [lia | apply Z.pow_pos_nonneg; lia]. }
    destruct (Zpos q * 2 ^ Z.of_nat t) as [|q'|q'] eqn:Hq'; try lia.
    replace m with (Zpos (xO q')) by lia.
    cbn [shr_1 orb]. apply IH. now rewrite Hq'.
Qed.

Lemma fexp_normal : forall x, -1021 <= x -> fexp 53 1024 x = x - 53.
Proof.
  intros x Hx. unfold fexp, emin. lia.
Qed.

Lemma log2_shift : forall q t, 0 < q -> 0 <= t -> Z.log2 (q * 2 ^ t) = Z.log2 q + t.
Proof.
  intros q t Hq Ht. rewrite Z.log2_mul_pow2 by lia. lia.
Qed.

(** Rounding a mantissa whose low bits are zero. *)
Lemma round_exact : forall (m : Z) (q : positive) (t : nat) (e : Z),
  m = Zpos q * 2 ^ Z.of_nat t ->
  Z.log2 (Zpos q) = 52 ->
  -1074 <= e + Z.of_nat t <= 971 ->
  binary_round_aux 53 1024 false m e loc_Exact
  = S754_finite false q (e + Z.of_nat t).
Proof.
  intros m q t e Hm Hq He.
  assert (Hmpos : 0 < m).
  { subst m. apply Z.mul_pos_pos; [lia | apply Z.pow_pos_nonneg; lia]. }
  destruct m as [|pm|pm]; try lia.
  unfold binary_round_aux, shr_fexp. cbn [Zdigits2 shr_record_of_loc].
  rewrite digits2_log2, Hm, log2_shift, Hq by lia.
  rewrite fexp_normal by lia.
  replace (52 + Z.of_nat t + 1 + e - 53 - e) with (Z.of_nat t) by lia.
  assert (Hshr : shr (Build_shr_record (Zpos q * 2 ^ Z.of_nat t) false false) e (Z.of_nat t)
                 = (Build_shr_record (Zpos q) false false, e + Z.of_nat t)).
  { unfold shr. destruct (Z.of_nat t) as [|pt|pt] eqn:Ht; try lia.
    - rewrite Z.mul_1_r, Z.add_0_r. reflexivity.
    - rewrite iter_pos_nat. f_equal.
      apply shr_exact. rewrite <- Ht. f_equal. f_equal. lia. }
  rewrite <- Hm in Hshr |- *. rewrite Hm in Hshr. rewrite Hm. rewrite Hshr.
  cbn [shr_m loc_of_shr_record round_nearest_even Zdigits2 shr_record_of_loc].
  rewrite digits2_log2, Hq, fexp_normal by lia.
  replace (52 + 1 + (e + Z.of_nat t) - 53 - (e + Z.of_nat t)) with 0 by lia.
  cbn [shr shr_m].
  replace (e + Z.of_nat t <=? 1024 - 53) with true by lia.
  reflexivity.
Qed.

Lemma iter_xO : forall d p, Zpos (Pos.iter xO p d) = Zpos p * 2 ^ Zpos d.
Proof.
  induction d as [|d IH] using Pos.peano_ind; intros p.
  - simpl. lia.
  - rewrite Pos.iter_succ, Pos2Z.inj_xO, IH, Pos2Z.inj_succ, Z.pow_succ_r by lia.
    lia.
Qed.

Lemma canon_log2 : forall v,
  0 < v -> Z.log2 v <= 52 ->
  0 < v * 2 ^ (52 - Z.log2 v) /\ Z.log2 (v * 2 ^ (52 - Z.log2 v)) = 52.
Proof.
  intros v Hv Hl. split.
  - apply Z.mul_pos_pos; [lia | apply Z.pow_pos_nonneg; lia].
  - rewrite log2_shift by lia. lia.
Qed.

Lemma normalize_canon : forall v e,
  0 < v -> Z.log2 v <= 52 -> -1000 <= e <= 900 ->
  binary_normalize 53 1024 v e false = canon v e.
Proof.
  intros v e Hv Hl He.
  destruct (canon_log2 v Hv Hl) as [Hpos Hlog].
  destruct v as [|p|p]; try lia.
  pose proof (Z.log2_nonneg (Zpos p)) as Hnn.
  unfold binary_normalize, binary_round, shl_align, canon.
  rewrite digits2_log2, fexp_normal by (pose proof (Z.log2_nonneg (Zpos p)); lia).
  replace (Z.log2 (Zpos p) + 1 + e - 53 - e) with (- (52 - Z.log2 (Zpos p))) by lia.
  destruct (52 - Z.log2 (Zpos p)) as [|j|j] eqn:Hj; try lia.
  - cbn [Z.opp]. rewrite Z.pow_0_r, Z.mul_1_r in *.
    rewrite (round_exact (Zpos p) p O e);
      [ | change (Z.of_nat 0) with 0; rewrite Z.pow_0_r; lia | lia | lia ].
    cbn [Z.to_pos]. f_equal; lia.
  - cbn [Z.opp]. cbv beta iota zeta.
    replace (Z.log2 (Zpos p) + 1 + e - 53) with (e - Zpos j) by lia.
    rewrite (round_exact _ (Pos.iter xO p j) O (e - Zpos j));
      [ | change (Z.of_nat 0) with 0; rewrite Z.pow_0_r; lia
        | rewrite iter_xO; exact Hlog | lia ].
    rewrite <- iter_xO. cbn [Z.to_pos]. f_equal. lia.
Qed.

Lemma of_int_canon : forall n,
  0 < n < 2 ^ 53 -> Float64.of_int n = canon n 0.
Proof.
  intros n Hn. unfold Float64.of_int, Float64.prec, Float64.emax.
  apply normalize_canon; try lia.
  assert (Z.log2 n < 53) by (apply Z.log2_lt_pow2; lia). lia.
Qed.

Lemma div_eucl_exact : forall a b, 0 < b -> Z.div_eucl (a * b) b = (a, 0).
Proof.
  intros a b Hb.
  pose proof (Z.div_mul a b ltac:(lia)) as Hd.
  pose proof (Z.mod_mul a b ltac:(lia)) as Hm.
  unfold Z.div, Z.modulo in Hd, Hm.
  destruct (Z.div_eucl (a * b) b) as [q r]. now subst.
Qed.

Lemma div_canon : forall v s ey,
  0 < v -> Z.log2 v <= 52 -> -500 <= s <= 500 -> -100 <= ey <= 100 ->
  Float64.div (canon v s) (S754_finite false 4503599627370496 ey)
  = canon v (s - (ey + 52)).
Proof.
  intros v s ey Hv Hl Hs Hey.
  destruct (canon_log2 v Hv Hl) as [Hpos Hlog].
  pose proof (Z.log2_nonneg v) as Hnn.
  unfold Float64.div, Float64.prec, Float64.emax, canon, SFdiv, SFdiv_core_binary.
  destruct (v * 2 ^ (52 - Z.log2 v)) as [|q|q] eqn:Hq; try lia.
  cbn [Z.to_pos Zdigits2 xorb].
  rewrite digits2_log2, Hlog.
  change (Zpos (digits2_pos 4503599627370496)) with 53.
  rewrite fexp_normal by lia.
  replace (Z.min (52 + 1 + (s - (52 - Z.log2 v)) - (53 + ey) - 53)
             (s - (52 - Z.log2 v) - ey))
    with (s - (52 - Z.log2 v) - ey - 53) by lia.
  replace (s - (52 - Z.log2 v) - ey - (s - (52 - Z.log2 v) - ey - 53)) with 53 by lia.
  cbv beta iota zeta.
  rewrite Z.shiftl_mul_pow2 by lia.
  replace (Zpos q * 2 ^ 53) with ((2 * Zpos q) * 4503599627370496) by lia.
  rewrite div_eucl_exact by lia.
  change (new_location 4503599627370496 0) with loc_Exact.
  rewrite (round_exact (2 * Zpos q) q 1 _); try lia.
  f_equal. lia.
Qed.

Lemma to_int64_canon : forall v s,
  0 < v < 2 ^ 53 -> -500 <= s <= 0 ->
  Float64.to_int64 (canon v s) = v / 2 ^ (- s).
Proof.
  intros v s Hv Hs.
  assert (Hl : Z.log2 v <= 52) by (assert (Z.log2 v < 53) by (apply Z.log2_lt_pow2; lia); lia).
  destruct (canon_log2 v (proj1 Hv) Hl) as [Hpos Hlog].
  pose proof (Z.log2_nonneg v) as Hnn.
  unfold canon, Float64.to_int64.
  destruct (v * 2 ^ (52 - Z.log2 v)) as [|q|q] eqn:Hq; try lia.
  cbn [Z.to_pos].
  assert (Hval : match s - (52 - Z.log2 v) with
                 | Zneg p => Z.shiftr (Zpos q) (Zpos p)
                 | _ => Zpos q * 2 ^ (s - (52 - Z.log2 v))
                 end = v / 2 ^ (- s)).
  { destruct (s - (52 - Z.log2 v)) as [|p|p] eqn:He; try lia.
    - assert (s = 0) by lia. assert (Z.log2 v = 52) by lia. subst s.
      rewrite <- Hq. replace (52 - Z.log2 v) with 0 by lia.
      simpl. rewrite Z.div_1_r. lia.
    - rewrite Z.shiftr_div_pow2 by lia. rewrite <- Hq.
      replace (Zpos p) with ((52 - Z.log2 v) + (- s)) by lia.
      rewrite Z.pow_add_r by lia. rewrite (Z.mul_comm v).
      rewrite Z.div_mul_cancel_l by (apply Z.pow_nonzero; lia).
      reflexivity. }
  cbv zeta. rewrite Hval.
  assert (Hb : 0 <= v / 2 ^ (- s) <= v).
  { split; [apply Z.div_pos; [lia | apply Z.pow_pos_nonneg; lia]|].
    apply Z.div_le_upper_bound; [apply Z.pow_pos_nonneg; lia|].
    assert (0 < 2 ^ (- s)) by (apply Z.pow_pos_nonneg; lia). nia. }
  unfold Int64.min_int, Int64.max_int.
  replace ((- 2 ^ 63 <=? v / 2 ^ (- s)) && (v / 2 ^ (- s) <=? 2 ^ 63 - 1)) with true by lia.
  reflexivity.
Qed.

Lemma canon_shift : forall a i s,
  0 < a -> 0 <= i -> Z.log2 a + i <= 52 ->
  canon (a * 2 ^ i) (s - i) = canon a s.
Proof.
  intros a i s Ha Hi Hl. unfold canon.
  rewrite log2_shift by lia.
  replace (52 - (Z.log2 a + i)) with (52 - Z.log2 a - i) by lia.
  f_equal.
  - f_equal. rewrite <- Z.mul_assoc, <- Z.pow_add_r by lia. f_equal. f_equal. lia.
  - lia.
Qed.

Lemma eqb_same : forall q e,
  Float64.eqb (S754_finite false q e) (S754_finite false q e) = true.
Proof.
  intros q e. unfold Float64.eqb, SFeqb, SFcompare.
  now rewrite Z.compare_refl, Pos.compare_cont_refl.
Qed.

Lemma eqb_other_mantissa : forall q q' e,
  q <> q' ->
  Float64.eqb (S754_finite false q e) (S754_finite false q' e) = false.
Proof.
  intros q q' e Hq. unfold Float64.eqb, SFeqb, SFcompare.
  rewrite Z.compare_refl. fold (Pos.compare q q').
  destruct (Pos.compare q q') eqn:Hc; try reflexivity.
  apply Pos.compare_eq in Hc. contradiction.
Qed.

Lemma sub_same_exponent : forall qx qy e,
  (qy < qx)%positive -> Z.log2 (Zpos qx) <= 52 -> -1000 <= e <= 900 ->
  Float64.sub (S754_finite false qx e) (S754_finite false qy e)
  = canon (Zpos qx - Zpos qy) e.
Proof.
  intros qx qy e Hlt Hl He.
  unfold Float64.sub, Float64.prec, Float64.emax, SFsub, shl_align.
  rewrite Z.min_id, Z.sub_diag. cbn [fst cond_Zopp].
  apply normalize_canon; try lia.
  etransitivity; [apply Z.log2_le_mono|exact Hl]. lia.
Qed.

Lemma mul_hundred : forall r k,
  0 < r < 2 ^ 48 -> 0 <= k <= 100 ->
  Float64.mul (canon r (- k)) (S754_finite false 7036874417766400 (-46))
  = canon (25 * r) (2 - k).
Proof.
  intros r k Hr Hk.
  assert (Hlr : Z.log2 r < 48) by (apply Z.log2_lt_pow2; lia).
  assert (Hl25 : Z.log2 (25 * r) < 53) by (apply Z.log2_lt_pow2; lia).
  assert (Hmono : Z.log2 r <= Z.log2 (25 * r)) by (apply Z.log2_le_mono; lia).
  pose proof (Z.log2_nonneg r) as Hnn.
  destruct (canon_log2 r ltac:(lia) ltac:(lia)) as [Hpos Hlog].
  destruct (canon_log2 (25 * r) ltac:(lia) ltac:(lia)) as [Hpos25 Hlog25].
  unfold Float64.mul, Float64.prec, Float64.emax, canon, SFmul.
  destruct (r * 2 ^ (52 - Z.log2 r)) as [|q|q] eqn:Hq; try lia.
  destruct (25 * r * 2 ^ (52 - Z.log2 (25 * r))) as [|q25|q25] eqn:Hq25; try lia.
  cbn [Z.to_pos xorb].
  rewrite (round_exact _ q25 (Z.to_nat (Z.log2 (25 * r) - Z.log2 r + 48))).
  - f_equal. lia.
  - rewrite Pos2Z.inj_mul, <- Hq, <- Hq25, Z2Nat.id by lia.
    change (Zpos 7036874417766400) with (25 * 2 ^ 48).
    replace (25 * r * 2 ^ (52 - Z.log2 (25 * r)) * 2 ^ (Z.log2 (25 * r) - Z.log2 r + 48))
      with (25 * r * (2 ^ (52 - Z.log2 (25 * r)) * 2 ^ (Z.log2 (25 * r) - Z.log2 r + 48))) by lia.
    rewrite <- Z.pow_add_r by lia.
    replace (52 - Z.log2 (25 * r) + (Z.log2 (25 * r) - Z.log2 r + 48))
      with ((52 - Z.log2 r) + 48) by lia.
    rewrite Z.pow_add_r by lia. lia.
  - exact Hlog25.
  - lia.
Qed.

Lemma log2_quotient : forall b k,
  0 <= k -> 2 ^ k <= b -> Z.log2 (b / 2 ^ k) = Z.log2 b - k.
Proof.
  intros b k Hk Hb.
  assert (Hpos : 0 < b) by (assert (0 < 2 ^ k) by (apply Z.pow_pos_nonneg; lia); lia).
  rewrite <- Z.shiftr_div_pow2, Z.log2_shiftr by lia.
  assert (k <= Z.log2 b) by (apply Z.log2_le_pow2; lia). lia.
Qed.

Lemma canon_whole : forall b k,
  0 <= k -> 2 ^ k <= b -> Z.log2 b <= 52 ->
  canon (b / 2 ^ k) 0
  = S754_finite false (Z.to_pos ((b - b mod 2 ^ k) * 2 ^ (52 - Z.log2 b)))
      (- k - (52 - Z.log2 b)).
Proof.
  intros b k Hk Hb Hl. unfold canon.
  assert (H2k : 0 < 2 ^ k) by (apply Z.pow_pos_nonneg; lia).
  rewrite log2_quotient by lia.
  assert (k <= Z.log2 b) by (apply Z.log2_le_pow2; lia).
  f_equal; [|lia]. f_equal.
  replace (52 - (Z.log2 b - k)) with (k + (52 - Z.log2 b)) by lia.
  rewrite Z.pow_add_r, Z.mul_assoc by lia. f_equal.
  pose proof (Z.div_mod b (2 ^ k) ltac:(lia)). lia.
Qed.

Lemma formatFloat_canon : forall b k,
  (k = 0 \/ 2 <= k <= 48) -> 2 ^ k <= b < 2 ^ 53 ->
  formatFloat (canon b (- k))
  = if b mod 2 ^ k =? 0 then string_of_rune (zero_char + (b / 2 ^ k) mod 10)
    else if (b mod 2 ^ k) * 100 / 2 ^ k >? 0
         then intToString (b / 2 ^ k) ++ "." ++ padZero ((b mod 2 ^ k) * 100 / 2 ^ k)
         else intToString (b / 2 ^ k).
Proof.
  intros b k Hk Hb.
  assert (Hk0 : 0 <= k <= 48) by lia.
  assert (H2k : 0 < 2 ^ k) by (apply Z.pow_pos_nonneg; lia).
  assert (Hbpos : 0 < b) by lia.
  assert (Hl : Z.log2 b <= 52)
    by (assert (Z.log2 b < 53) by (apply Z.log2_lt_pow2; lia); lia).
  assert (Hkl : k <= Z.log2 b) by (apply Z.log2_le_pow2; lia).
  pose proof (Z.div_mod b (2 ^ k) ltac:(lia)) as Hdm.
  pose proof (Z.mod_pos_bound b (2 ^ k) H2k) as Hmod.
  assert (Hw : 0 < b / 2 ^ k) by (apply Z.div_str_pos; lia).
  assert (Hwb : b / 2 ^ k < 2 ^ 53).
  { apply Z.div_lt_upper_bound; [lia|]. nia. }
  assert (Hint : Float64.to_int64 (canon b (- k)) = b / 2 ^ k).
  { rewrite to_int64_canon by lia. now rewrite Z.opp_involutive. }
  unfold formatFloat. rewrite Hint, of_int_canon by lia.
  destruct (b mod 2 ^ k =? 0) eqn:Hr.
  - assert (Hb' : b = b / 2 ^ k * 2 ^ k) by lia.
    rewrite Hb' at 1. replace (- k) with (0 - k) by lia.
    rewrite canon_shift by (rewrite ?log2_quotient; lia).
    unfold canon. rewrite eqb_same.
    rewrite Z.rem_mod_nonneg by lia. reflexivity.
  - assert (Hrpos : 0 < b mod 2 ^ k) by lia.
    assert (Hk2 : 2 <= k <= 48).
    { destruct Hk as [-> | Hk]; [|exact Hk]. rewrite Z.pow_0_r, Z.mod_1_r in Hrpos. lia. }
    assert (Hp2 : 0 < 2 ^ (52 - Z.log2 b)) by (apply Z.pow_pos_nonneg; lia).
    assert (H48 : 2 ^ k <= 2 ^ 48) by (apply Z.pow_le_mono_r; lia).
    assert (Hneq : Float64.eqb (canon b (- k)) (canon (b / 2 ^ k) 0) = false).
    { rewrite canon_whole by lia. unfold canon.
      apply eqb_other_mantissa. intros Heq. apply Z2Pos.inj in Heq; nia. }
    assert (Hfrac : Float64.to_int64
              (Float64.mul (Float64.sub (canon b (- k)) (canon (b / 2 ^ k) 0))
                 (Float64.of_int 100))
            = b mod 2 ^ k * 100 / 2 ^ k).
    { rewrite canon_whole by lia. unfold canon at 1.
      rewrite sub_same_exponent; cycle 1.
      - match goal with |- (?p < ?q)%positive => change (Z.pos p < Z.pos q) end.
        rewrite !Z2Pos.id by nia. nia.
      - rewrite Z2Pos.id by nia. rewrite log2_shift by lia. lia.
      - lia.
      - rewrite !Z2Pos.id by nia.
        replace (b * 2 ^ (52 - Z.log2 b) - (b - b mod 2 ^ k) * 2 ^ (52 - Z.log2 b))
          with (b mod 2 ^ k * 2 ^ (52 - Z.log2 b)) by lia.
        assert (Z.log2 (b mod 2 ^ k) <= Z.log2 b) by (apply Z.log2_le_mono; lia).
        rewrite canon_shift by lia.
        change (Float64.of_int 100) with (S754_finite false 7036874417766400 (-46)).
        rewrite mul_hundred by lia.
        rewrite to_int64_canon by lia.
        replace (- (2 - k)) with (k - 2) by lia.
        replace (2 ^ k) with (4 * 2 ^ (k - 2)).
        2:{ change 4 with (2 ^ 2). rewrite <- Z.pow_add_r by lia. f_equal. lia. }
        replace (b mod (4 * 2 ^ (k - 2)) * 100)
          with (4 * (25 * (b mod (4 * 2 ^ (k - 2))))) by lia.
        rewrite Z.div_mul_cancel_l; [reflexivity | | lia].
        apply Z.pow_nonzero; lia. }
    rewrite Hneq. unfold floatToString.
    rewrite Hint, of_int_canon, Hfrac by lia.
    set (h := b mod 2 ^ k * 100 / 2 ^ k).
    assert (0 <= h) by (apply Z.div_pos; lia).
    replace (h <? 0) with false by lia. reflexivity.
Qed.

Lemma of_int_unit : forall k,
  In k (10 :: 20 :: 30 :: 40 :: nil) ->
  Float64.of_int (2 ^ k) = S754_finite false 4503599627370496 (k - 52).
Proof.
  intros k Hk. cbn [In] in Hk.
  destruct Hk as [<- | [<- | [<- | [<- | []]]]]; vm_compute; reflexivity.
Qed.

Lemma scaled_canon : forall b k,
  In k (10 :: 20 :: 30 :: 40 :: nil) -> 0 < b < 2 ^ 53 ->
  Float64.div (Float64.of_int b) (Float64.of_int (2 ^ k)) = canon b (- k).
Proof.
  intros b k Hk Hb.
  assert (Hl : Z.log2 b <= 52)
    by (assert (Z.log2 b < 53) by (apply Z.log2_lt_pow2; lia); lia).
  assert (Hr : 10 <= k <= 40)
    by (cbn [In] in Hk; destruct Hk as [<- | [<- | [<- | [<- | []]]]]; lia).
  rewrite of_int_canon, of_int_unit by assumption.
  rewrite div_canon by lia. f_equal. lia.
Qed.

(** X19.  Below 2 ^ 53 bytes the float arithmetic of [FormatSize] is exact
    integer arithmetic: the unit is the largest of B, KB, MB, GB, TB that
    the size reaches; a whole number of units prints as its last decimal
    digit; any other size prints the whole units in full, followed by the
    hundredths of a unit, truncated and in two digits, unless they are
    zero. *)
Theorem FormatSize_is_exact : forall bytes,
  0 <= bytes < 2 ^ 53 -> FormatSize bytes = formatExact bytes.
Proof.
  intros b Hb. unfold FormatSize, formatExact, unitShift, unitName.
  assert (HT : TB = 2 ^ 40) by reflexivity.
  assert (HG : GB = 2 ^ 30) by reflexivity.
  assert (HM : MB = 2 ^ 20) by reflexivity.
  assert (HK : KB = 2 ^ 10) by reflexivity.
  destruct (b >=? TB) eqn:ET; [|destruct (b >=? GB) eqn:EG;
    [|destruct (b >=? MB) eqn:EM; [|destruct (b >=? KB) eqn:EK]]].
  - rewrite HT in *. rewrite scaled_canon by (cbn [In]; lia || auto).
    rewrite formatFloat_canon by lia. cbv zeta. reflexivity.
  - rewrite HG in *. rewrite scaled_canon by (cbn [In]; lia || auto).
    rewrite formatFloat_canon by lia. cbv zeta. reflexivity.
  - rewrite HM in *. rewrite scaled_canon by (cbn [In]; lia || auto).
    rewrite formatFloat_canon by lia. cbv zeta. reflexivity.
  - rewrite HK in *. rewrite scaled_canon by (cbn [In]; lia || auto).
    rewrite formatFloat_canon by lia. cbv zeta. reflexivity.
  - destruct (Z.eq_dec b 0) as [-> | Hnz]; [vm_compute; reflexivity|].
    rewrite of_int_canon by lia.
    change (canon b 0) with (canon b (- 0)).
    rewrite formatFloat_canon by (rewrite ?Z.pow_0_r; lia).
    cbv zeta. reflexivity.
Qed.

(** X20.  A whole number of units below 1024 prints as its last decimal
    digit only, in every unit: 10 KB and 1000 KB both print as [0 KB]. *)
Theorem whole_units_print_one_digit : forall w,
  1 <= w < 1024 ->
  FormatSize w = string_of_rune (zero_char + w mod 10) ++ " B" /\
  FormatSize (w * KB) = string_of_rune (zero_char + w mod 10) ++ " KB" /\
  FormatSize (w * MB) = string_of_rune (zero_char + w mod 10) ++ " MB" /\
  FormatSize (w * GB) = string_of_rune (zero_char + w mod 10) ++ " GB" /\
  FormatSize (w * TB) = string_of_rune (zero_char + w mod 10) ++ " TB".
Proof.
  intros w Hw.
  assert (Hunit : forall k, In k (10 :: 20 :: 30 :: 40 :: nil) ->
            formatFloat (Float64.div (Float64.of_int (w * 2 ^ k))
                           (Float64.of_int (2 ^ k)))
            = string_of_rune (zero_char + w mod 10)).
  { intros k Hk.
    assert (Hr : 10 <= k <= 40)
      by (cbn [In] in Hk; destruct Hk as [<- | [<- | [<- | [<- | []]]]]; lia).
    assert (H2k : 0 < 2 ^ k) by (apply Z.pow_pos_nonneg; lia).
    assert (H40 : 2 ^ k <= 2 ^ 40) by (apply Z.pow_le_mono_r; lia).
    rewrite scaled_canon by (auto; nia).
    rewrite formatFloat_canon by nia.
    rewrite Z.mod_mul, Z.div_mul by lia. reflexivity. }
  unfold FormatSize.
  change TB with (2 ^ 40). change GB with (2 ^ 30).
  change MB with (2 ^ 20). change KB with (2 ^ 10).
  repeat split.
  - replace (w >=? 2 ^ 40) with false by lia.
    replace (w >=? 2 ^ 30) with false by lia.
    replace (w >=? 2 ^ 20) with false by lia.
    replace (w >=? 2 ^ 10) with false by lia.
    rewrite of_int_canon by lia. change (canon w 0) with (canon w (- 0)).
    rewrite formatFloat_canon by (rewrite ?Z.pow_0_r; lia).
    rewrite Z.pow_0_r, Z.mod_1_r, Z.div_1_r. reflexivity.
  - replace (w * 2 ^ 10 >=? 2 ^ 40) with false by lia.
    replace (w * 2 ^ 10 >=? 2 ^ 30) with false by lia.
    replace (w * 2 ^ 10 >=? 2 ^ 20) with false by lia.
    replace (w * 2 ^ 10 >=? 2 ^ 10) with true by lia.
    rewrite Hunit by (cbn [In]; auto). reflexivity.
  - replace (w * 2 ^ 20 >=? 2 ^ 40) with false by lia.
    replace (w * 2 ^ 20 >=? 2 ^ 30) with false by lia.
    replace (w * 2 ^ 20 >=? 2 ^ 20) with true by lia.
    rewrite Hunit by (cbn [In]; auto). reflexivity.
  - replace (w * 2 ^ 30 >=? 2 ^ 40) with false by lia.
    replace (w * 2 ^ 30 >=? 2 ^ 30) with true by lia.
    rewrite Hunit by (cbn [In]; auto). reflexivity.
  - replace (w * 2 ^ 40 >=? 2 ^ 40) with true by lia.
    rewrite Hunit by (cbn [In]; auto). reflexivity.
Qed.

(** ** The further properties at work *)

Local Notation "'sampleEntries'" :=
  (match ReadDir sample with inr entries => entries | inl _ => [] end).

Local Notation "'finished'" :=
  (Fanout.Build_state nat nat [] true
     [(7, Fanout.Exited); (5, Fanout.Exited)]%nat 0 0 false [5; 7]%nat 12).

Local Notation "'oneAfterTheOther'" :=
  ([Fanout.Spawn; Fanout.Spawn]
   ++ repeat (Fanout.Run 1) 7 ++ repeat (Fanout.Run 0) 7
   ++ [Fanout.Wait])%list.

Local Notation "'noDrive'" :=
  (fun _ : string => @inl error FileInfo.t (PathError "stat" "drive" "not found")).

Local Notation "'workDir'" :=
  (@inr error string ("D:" ++ backslash ++ "work")).

Lemma expanded_sizes_sum_up_witness :
  statsListedDirs sample = true /\
  analyzeSample [2; 0]%nat "/data" 3
    = (fst (analyzeSample [2; 0]%nat "/data" 3), None) /\
  Forall SumsUp (elems (Items (fst (analyzeSample [2; 0]%nat "/data" 3)))).
Proof.
  split; [reflexivity|]. split; [vm_compute; reflexivity|].
  exact (expanded_sizes_sum_up (fun p => p) joinSlash insertionSort
           insertionSort_perm "data" 4096 sampleEntries [2; 0]%nat "/data" 3 _
           eq_refl eq_refl).
Defined.

Lemma result_is_at_most_depth_deep_witness :
  analyzeSample [2; 0]%nat "/data" 2
    = (fst (analyzeSample [2; 0]%nat "/data" 2), None) /\
  Forall (fun d => Z.of_nat (height d) <= Z.max 0 (2 - 1))
    (elems (Items (fst (analyzeSample [2; 0]%nat "/data" 2)))).
Proof.
  split; [vm_compute; reflexivity|].
  exact (proj1 (result_is_at_most_depth_deep (fun p => p) joinSlash insertionSort
                  insertionSort_perm sample [2; 0]%nat "/data" 2 _ eq_refl)).
Defined.


Lemma paths_follow_the_tree_witness :
  DirEntry.IsDir sample = true /\
  analyzeSample [2; 0]%nat "/data" 3
    = (fst (analyzeSample [2; 0]%nat "/data" 3), None) /\
  PathsUnder joinSlash (RootPath (fst (analyzeSample [2; 0]%nat "/data" 3)))
    (elems (Items (fst (analyzeSample [2; 0]%nat "/data" 3)))).
Proof.
  split; [reflexivity|]. split; [vm_compute; reflexivity|].
  exact (proj2 (paths_follow_the_tree (fun p => p) joinSlash insertionSort
                  insertionSort_perm sample [2; 0]%nat "/data" 3 _
                  eq_refl eq_refl)).
Defined.

Lemma schedule_shows_only_in_ties_witness :
  analyzeSample [2; 0]%nat "/data" 2
    = (fst (analyzeSample [2; 0]%nat "/data" 2), None) /\
  analyzeSample [1; 1; 1]%nat "/data" 2
    = (fst (analyzeSample [1; 1; 1]%nat "/data" 2), None) /\
  Permutation (elems (Items (fst (analyzeSample [2; 0]%nat "/data" 2))))
    (elems (Items (fst (analyzeSample [1; 1; 1]%nat "/data" 2)))).
Proof.
  split; [vm_compute; reflexivity|]. split; [vm_compute; reflexivity|].
  exact (proj1 (proj2 (proj2 (proj2
    (schedule_shows_only_in_ties (fun p => p) joinSlash insertionSort
       insertionSort_perm insertionSort_sorted sample
       [2; 0]%nat [1; 1; 1]%nat "/data" 2 _ _ eq_refl eq_refl))))).
Defined.

Lemma error_and_result_agree_witness :
  snd (AnalyzeDiskUsage (fun p => p) joinSlash insertionSort missing []
         "/definitely/does/not/exist" 1)
  = Some (PathError "stat" "/definitely/does/not/exist" "no such file or directory") /\
  Error (fst (AnalyzeDiskUsage (fun p => p) joinSlash insertionSort missing []
                "/definitely/does/not/exist" 1))
  = Err.Error
      (PathError "stat" "/definitely/does/not/exist" "no such file or directory").
Proof.
  split; [reflexivity|].
  exact (proj2 (proj2 (proj2
    (error_and_result_agree (fun p => p) joinSlash insertionSort missing []
       "/definitely/does/not/exist" 1 _ _ eq_refl))) _ eq_refl).
Defined.

Lemma handleAnalyze_answers_witness :
  Method (Build_Request "GET" "/data" "9") = "GET" /\
  exists result,
    handleAnalyze (fun p => p) joinSlash insertionSort (fun _ => sample) [2; 0]%nat
      (Build_Request "GET" "/data" "9")
    = Build_Response 200 "application/json" (ResultObject result) /\
    Error result = "" /\
    Forall (fun d => (height d <= 4)%nat) (elems (Items result)).
Proof.
  split; [reflexivity|].
  destruct (proj2 (handleAnalyze_answers (fun p => p) joinSlash insertionSort
                     insertionSort_perm (fun _ => sample) [2; 0]%nat
                     (Build_Request "GET" "/data" "9")) eq_refl)
    as [(err & Hroot & _) | (result & _ & Hanswer & Herror & Hheight)].
  - exfalso. destruct Hroot as [Hstat | (_ & _ & Hread)]; discriminate.
  - exists result. split; [exact Hanswer|]. split; [exact Herror | exact Hheight].
Defined.

Lemma executions_are_bounded_witness :
  Fanout.run (fun e : nat => e) Z.of_nat oneAfterTheOther (Fanout.init [7; 5]%nat)
  = Some finished /\
  (List.length oneAfterTheOther <= 8 * List.length [7; 5]%nat + 1)%nat.
Proof.
  split; [reflexivity|].
  exact (proj1 (executions_are_bounded nat nat (fun e : nat => e) Z.of_nat
                  [7; 5]%nat oneAfterTheOther finished eq_refl)).
Defined.

Lemma appends_exclude_each_other_witness :
  Fanout.reachable (fun e : nat => e) Z.of_nat [7; 5]%nat finished /\
  (Fanout.countPc Fanout.inCritical (Fanout.tasks finished) <= 1)%nat.
Proof.
  assert (Hrun : Fanout.reachable (fun e : nat => e) Z.of_nat [7; 5]%nat finished).
  { exists oneAfterTheOther. reflexivity. }
  split; [exact Hrun|].
  exact (proj1 (appends_exclude_each_other nat nat (fun e : nat => e) Z.of_nat
                  _ _ Hrun)).
Defined.

Lemma some_step_is_always_possible_witness :
  Fanout.reachable (fun e : nat => e) Z.of_nat [7; 5]%nat
    (@Fanout.init nat nat [7; 5]%nat) /\
  Fanout.waited (@Fanout.init nat nat [7; 5]%nat) = false /\
  exists a s',
    Fanout.fire (fun e : nat => e) Z.of_nat a (@Fanout.init nat nat [7; 5]%nat)
    = Some s'.
Proof.
  assert (Hrun : Fanout.reachable (fun e : nat => e) Z.of_nat [7; 5]%nat
                   (@Fanout.init nat nat [7; 5]%nat)).
  { exists []. reflexivity. }
  split; [exact Hrun|]. split; [reflexivity|].
  exact (some_step_is_always_possible nat nat (fun e : nat => e) Z.of_nat
           _ _ Hrun eq_refl).
Defined.

Lemma tasks_compute_every_entry_witness :
  Fanout.reachable (fun e : nat => e) Z.of_nat [7; 5]%nat finished /\
  Fanout.waited finished = true /\
  Permutation (Fanout.items finished) [7; 5]%nat.
Proof.
  assert (Hrun : Fanout.reachable (fun e : nat => e) Z.of_nat [7; 5]%nat finished).
  { exists oneAfterTheOther. reflexivity. }
  split; [exact Hrun|]. split; [reflexivity|].
  exact (proj1 (tasks_compute_every_entry nat nat (fun e : nat => e) Z.of_nat
                  _ _ Hrun eq_refl)).
Defined.

Lemma NormalizePath_unix_is_absolute_witness :
  trimAsciiSpace "   " = "" /\
  NormalizePath "linux" (inr "/root") trimAsciiSpace (fun p => p) "   " = "/".
Proof.
  split; [reflexivity|].
  assert (Hos : "linux" <> "windows") by discriminate.
  exact (proj1 (NormalizePath_unix_is_absolute "linux" (inr "/root")
                  trimAsciiSpace (fun p => p) "   " Hos) eq_refl).
Defined.


Lemma blank_path_is_the_default_path_witness :
  trimAsciiSpace "  " = "" /\
  NormalizePath "windows" workDir trimAsciiSpace (fun p => p) "  "
  = DefaultPath (GetOSInfo "windows" workDir noDrive).
Proof.
  split; [reflexivity|].
  exact (blank_path_is_the_default_path "windows" workDir noDrive
           trimAsciiSpace (fun p => p) "  " eq_refl).
Defined.

Lemma FormatSize_is_exact_witness :
  0 <= 3012800 < 2 ^ 53 /\ FormatSize 3012800 = formatExact 3012800.
Proof.
  assert (Hrange : 0 <= 3012800 < 2 ^ 53) by (split; [discriminate | reflexivity]).
  split; [exact Hrange|].
  exact (FormatSize_is_exact 3012800 Hrange).
Defined.

Lemma whole_units_print_one_digit_witness :
  1 <= 10 < 1024 /\ FormatSize (10 * KB) = "0 KB".
Proof.
  assert (Hrange : 1 <= 10 < 1024) by (split; [discriminate | reflexivity]).
  split; [exact Hrange|].
  exact (proj1 (proj2 (whole_units_print_one_digit 10 Hrange))).
Defined.
